(** * Field-value normalizer and record segmenter of
      [extract_literature_information.py]

    A shallow embedding of [clean_field_value] and of the text-level part of
    [parse_bibtex_file] (everything after the file has been read), together
    with the fragment of Python's [re] and [str] libraries that the two
    functions call. *)

From Stdlib Require Import NArith String Ascii Bool Lia.
From stdpp Require Import base list sorting strings gmap.

Local Open Scope N_scope.
Local Open Scope list_scope.

(** ** Python text: sequences of Unicode code points *)

Module PyStr.

(** A Python [str] is a sequence of code points. *)
Abbreviation char := N.
Abbreviation str := (list N).

(** Source literals are written as UTF-8 text and decoded to code points. *)
Fixpoint utf8_go (acc : N) (need : nat) (s : string) : str :=
  match s with
  | EmptyString => []
  | String a s' =>
      let b := N_of_ascii a in
      match need with
      | S n =>
          let acc' := acc * 64 + b mod 64 in
          match n with
          | O => acc' :: utf8_go 0 0 s'
          | S _ => utf8_go acc' n s'
          end
      | O =>
          if b <? 128 then b :: utf8_go 0 0 s'
          else if b <? 224 then utf8_go (b mod 32) 1 s'
          else if b <? 240 then utf8_go (b mod 16) 2 s'
          else utf8_go (b mod 8) 3 s'
      end
  end.

Definition u (s : string) : str := utf8_go 0 0 s.

(** Characters that cannot be written inside a literal here. *)
Definition dquote : char := 34.
Definition newline : char := 10.
Definition backslash : char := 92.
Definition lbrace : char := 123.
Definition rbrace : char := 125.
Definition hyphen : char := 45.
Definition backtick : char := 96.
Definition squote : char := 39.
Definition space : char := 32.

Definition in_range (lo hi c : char) : bool := (lo <=? c) && (c <=? hi).

(** [Py_UNICODE_ISSPACE]: the predicate behind both [\s] and [str.strip()]. *)
Definition is_space (c : char) : bool :=
  in_range 9 13 c || in_range 28 31 c || (c =? 32) || (c =? 133) || (c =? 160)
  || (c =? 5760) || in_range 8192 8202 c || (c =? 8232) || (c =? 8233)
  || (c =? 8239) || (c =? 8287) || (c =? 12288).

Definition is_ascii_letter (c : char) : bool :=
  in_range 65 90 c || in_range 97 122 c.

Definition is_ascii_digit (c : char) : bool := in_range 48 57 c.

(** [str.replace(old, new)] for a non-empty [old] (every call site passes a
    non-empty literal): occurrences are replaced left to right, and the scan
    resumes after each replaced occurrence.  [skip] counts the characters of
    the current occurrence that are still to be stepped over. *)
Definition starts_with (old s : str) : bool :=
  bool_decide (take (length old) s = old).

Fixpoint replace_go (old new : str) (skip : nat) (s : str) : str :=
  match s with
  | [] => []
  | c :: s' =>
      match skip with
      | S k => replace_go old new k s'
      | O =>
          if starts_with old s
          then new ++ replace_go old new (length old - 1) s'
          else c :: replace_go old new 0 s'
      end
  end.

Definition replace (old new s : str) : str := replace_go old new 0 s.

(** [str.strip()] *)
Fixpoint lstrip (s : str) : str :=
  match s with
  | [] => []
  | c :: s' => if is_space c then lstrip s' else s
  end.

Fixpoint rstrip (s : str) : str :=
  match s with
  | [] => []
  | c :: s' =>
      match rstrip s' with
      | [] => if is_space c then [] else [c]
      | t => c :: t
      end
  end.

Definition strip (s : str) : str := rstrip (lstrip s).

(** [s[i:j]] for [0 <= i], [0 <= j]. *)
Definition slice (s : str) (i j : nat) : str := take (j - i) (drop i s).

(** [old in s]: [old] occurs somewhere in [s]. *)
Fixpoint contains (old s : str) : bool :=
  starts_with old s ||
  match s with
  | [] => false
  | _ :: s' => contains old s'
  end.

(** A sample of the Unicode tables (the letters and digits of Latin-1 and
    Latin Extended-A, the case pairs of Latin-1), used where a statement is
    instantiated on concrete text. *)
Definition latin_alnum (c : char) : bool :=
  (c =? 170) || (c =? 178) || (c =? 179) || (c =? 181) || (c =? 185)
  || (c =? 186) || in_range 188 190 c || in_range 192 214 c
  || in_range 216 246 c || in_range 248 383 c.

Definition latin_lower (s : str) : str :=
  map (fun c => if in_range 65 90 c || in_range 192 214 c || in_range 216 222 c
                then c + 32 else c) s.

End PyStr.
Export PyStr.

(** ** The fragment of Python's [re] used by the program *)

Section Program.

Set Default Proof Using "Type".

(** Python's [\w], [\b] and [str.lower()] consult the Unicode character
    database for code points outside ASCII.  The database is not part of the
    program; it is taken as given. *)
Variable uni_alnum : char -> bool.
Variable uni_lower : str -> str.

(** [\w] on [str] patterns: alphanumeric or underscore. *)
Definition is_word (c : char) : bool :=
  if c <? 128 then is_ascii_letter c || is_ascii_digit c || (c =? 95)
  else uni_alnum c.

(** [str.lower()] *)
Definition ascii_lower (c : char) : char :=
  if in_range 65 90 c then c + 32 else c.

Definition lower (s : str) : str :=
  if forallb (fun c => c <? 128) s then map ascii_lower s else uni_lower s.

Inductive regex : Type :=
| Eps : regex
| Chr : char -> regex                (* a literal character *)
| Cls : (char -> bool) -> regex      (* a character class, [.] included *)
| Seq : regex -> regex -> regex
| Star : regex -> regex              (* greedy [*] *)
| Opt : regex -> regex               (* greedy [?] *)
| Group : nat -> regex -> regex      (* capturing group number n *)
| WordB : regex.                     (* [\b] *)

Definition Plus (r : regex) : regex := Seq r (Star r).

(** A literal word. *)
Fixpoint Lit (w : str) : regex :=
  match w with
  | [] => Eps
  | c :: w' => Seq (Chr c) (Lit w')
  end.

(** Captured groups, most recent binding first. *)
Abbreviation caps := (list (nat * str)).

Fixpoint group (n : nat) (cs : caps) : option str :=
  match cs with
  | [] => None
  | (i, v) :: cs' => if Nat.eqb i n then Some v else group n cs'
  end.

Definition orelse {A} (x y : option A) : option A :=
  match x with Some _ => x | None => y end.

Definition at_word (c : option char) : bool :=
  match c with Some x => is_word x | None => false end.

Abbreviation cont := (caps -> option char -> str -> option (caps * str)).

(** Backtracking matcher in continuation-passing style.  [prev] is the
    character just before the current position (for [\b]), [s] the text from
    the current position on.  Alternatives are tried in the order of Python's
    engine: a greedy repetition first tries one more iteration. *)
Fixpoint rmatch (r : regex) (k : cont) (cs : caps) (prev : option char)
    (s : str) {struct r} : option (caps * str) :=
  match r with
  | Eps => k cs prev s
  | Chr c =>
      match s with
      | x :: s' => if x =? c then k cs (Some x) s' else None
      | [] => None
      end
  | Cls f =>
      match s with
      | x :: s' => if f x then k cs (Some x) s' else None
      | [] => None
      end
  | Seq a b => rmatch a (rmatch b k) cs prev s
  | Opt a => orelse (rmatch a k cs prev s) (k cs prev s)
  | Star a =>
      (fix loop (fuel : nat) (cs : caps) (prev : option char) (s : str)
         : option (caps * str) :=
         match fuel with
         | O => k cs prev s
         | S fuel' =>
             orelse
               (rmatch a
                  (fun cs' prev' s' =>
                     if Nat.ltb (length s') (length s)
                     then loop fuel' cs' prev' s' else None)
                  cs prev s)
               (k cs prev s)
         end) (length s) cs prev s
  | Group n a =>
      rmatch a
        (fun cs' prev' s' =>
           k ((n, take (length s - length s') s) :: cs') prev' s')
        cs prev s
  | WordB =>
      if xorb (at_word prev) (at_word (head s)) then k cs prev s else None
  end.

Definition accept : cont := fun cs _ s => Some (cs, s).

(** One attempt at the current position: the groups and the text left after
    the match. *)
Definition match_at (r : regex) (prev : option char) (s : str)
  : option (caps * str) :=
  rmatch r accept [] prev s.

(** A match object: start offset, end offset, groups. *)
Record rematch : Type := MkMatch {
  m_start : nat;
  m_end : nat;
  m_groups : caps
}.

(** [re.search]: the leftmost position at which an attempt succeeds. *)
Fixpoint search_go (r : regex) (pos : nat) (prev : option char) (s : str)
  : option rematch :=
  match match_at r prev s with
  | Some (cs, rest) => Some (MkMatch pos (pos + (length s - length rest)) cs)
  | None =>
      match s with
      | [] => None
      | c :: s' => search_go r (S pos) (Some c) s'
      end
  end.

Definition re_search (r : regex) (s : str) : option rematch :=
  search_go r 0 None s.

(** [re.finditer]: successive non-overlapping matches, left to right.  After
    a match the scan resumes at its end; [skip] counts the characters of the
    current match that are still to be stepped over.  Every pattern of the
    program consumes at least one character. *)
Fixpoint finditer_go (r : regex) (skip pos : nat) (prev : option char)
    (s : str) : list rematch :=
  match s with
  | [] =>
      match match_at r prev s with
      | Some (cs, _) => [MkMatch pos pos cs]
      | None => []
      end
  | c :: s' =>
      match skip with
      | S j => finditer_go r j (S pos) (Some c) s'
      | O =>
          match match_at r prev s with
          | Some (cs, rest) =>
              let n := (length s - length rest)%nat in
              MkMatch pos (pos + n) cs
                :: finditer_go r (n - 1) (S pos) (Some c) s'
          | None => finditer_go r 0 (S pos) (Some c) s'
          end
      end
  end.

Definition re_finditer (r : regex) (s : str) : list rematch :=
  finditer_go r 0 0 None s.

(** Replacement templates of [re.sub]: literal text and group references. *)
Inductive rtok : Type :=
| RText : str -> rtok
| RGroup : nat -> rtok.

Definition expand_tok (cs : caps) (t : rtok) : str :=
  match t with
  | RText w => w
  | RGroup n => default [] (group n cs)
  end.

Definition expand (tpl : list rtok) (cs : caps) : str :=
  concat (map (expand_tok cs) tpl).

(** [re.sub(pattern, repl, string)] *)
Fixpoint sub_go (r : regex) (tpl : list rtok) (skip : nat)
    (prev : option char) (s : str) : str :=
  match s with
  | [] =>
      match match_at r prev s with
      | Some (cs, _) => expand tpl cs
      | None => []
      end
  | c :: s' =>
      match skip with
      | S j => sub_go r tpl j (Some c) s'
      | O =>
          match match_at r prev s with
          | Some (cs, rest) =>
              let n := (length s - length rest)%nat in
              expand tpl cs ++
                match n with
                | O => c :: sub_go r tpl 0 (Some c) s'
                | S j => sub_go r tpl j (Some c) s'
                end
          | None => c :: sub_go r tpl 0 (Some c) s'
          end
      end
  end.

Definition re_sub (r : regex) (tpl : list rtok) (s : str) : str :=
  sub_go r tpl 0 None s.

(** ** [clean_field_value] *)

(** The accent escapes with a brace-wrapped base letter, the named letters
    and the inverted punctuation marks, in the order of the source table. *)
Definition latex_mappings : list (regex * str) := [
  (Lit (u "\~{n}"), u "ñ");
  (Lit (u "\~{N}"), u "Ñ");
  (Lit (u "\~{a}"), u "ã");
  (Lit (u "\~{A}"), u "Ã");
  (Lit (u "\~{o}"), u "õ");
  (Lit (u "\~{O}"), u "Õ");
  (Seq (Chr backslash) (Seq (Opt (Chr squote)) (Lit (u "{a}"))), u "á");
  (Seq (Chr backslash) (Seq (Opt (Chr squote)) (Lit (u "{A}"))), u "Á");
  (Seq (Chr backslash) (Seq (Opt (Chr squote)) (Lit (u "{e}"))), u "é");
  (Seq (Chr backslash) (Seq (Opt (Chr squote)) (Lit (u "{E}"))), u "É");
  (Seq (Chr backslash) (Seq (Opt (Chr squote)) (Lit (u "{i}"))), u "í");
  (Seq (Chr backslash) (Seq (Opt (Chr squote)) (Lit (u "{I}"))), u "Í");
  (Seq (Chr backslash) (Seq (Opt (Chr squote)) (Lit (u "{o}"))), u "ó");
  (Seq (Chr backslash) (Seq (Opt (Chr squote)) (Lit (u "{O}"))), u "Ó");
  (Seq (Chr backslash) (Seq (Opt (Chr squote)) (Lit (u "{u}"))), u "ú");
  (Seq (Chr backslash) (Seq (Opt (Chr squote)) (Lit (u "{U}"))), u "Ú");
  (Seq (Chr backslash) (Seq (Opt (Chr squote)) (Lit (u "{y}"))), u "ý");
  (Seq (Chr backslash) (Seq (Opt (Chr squote)) (Lit (u "{Y}"))), u "Ý");
  (Seq (Chr backslash) (Seq (Opt (Chr squote)) (Lit (u "{c}"))), u "ć");
  (Seq (Chr backslash) (Seq (Opt (Chr squote)) (Lit (u "{C}"))), u "Ć");
  (Lit (u "\`{a}"), u "à");
  (Lit (u "\`{A}"), u "À");
  (Lit (u "\`{e}"), u "è");
  (Lit (u "\`{E}"), u "È");
  (Lit (u "\`{i}"), u "ì");
  (Lit (u "\`{I}"), u "Ì");
  (Lit (u "\`{o}"), u "ò");
  (Lit (u "\`{O}"), u "Ò");
  (Lit (u "\`{u}"), u "ù");
  (Lit (u "\`{U}"), u "Ù");
  (Lit (backslash :: dquote :: u "{a}"), u "ä");
  (Lit (backslash :: dquote :: u "{A}"), u "Ä");
  (Lit (backslash :: dquote :: u "{e}"), u "ë");
  (Lit (backslash :: dquote :: u "{E}"), u "Ë");
  (Lit (backslash :: dquote :: u "{i}"), u "ï");
  (Lit (backslash :: dquote :: u "{I}"), u "Ï");
  (Lit (backslash :: dquote :: u "{o}"), u "ö");
  (Lit (backslash :: dquote :: u "{O}"), u "Ö");
  (Lit (backslash :: dquote :: u "{u}"), u "ü");
  (Lit (backslash :: dquote :: u "{U}"), u "Ü");
  (Lit (u "\^{a}"), u "â");
  (Lit (u "\^{A}"), u "Â");
  (Lit (u "\^{e}"), u "ê");
  (Lit (u "\^{E}"), u "Ê");
  (Lit (u "\^{i}"), u "î");
  (Lit (u "\^{I}"), u "Î");
  (Lit (u "\^{o}"), u "ô");
  (Lit (u "\^{O}"), u "Ô");
  (Lit (u "\^{u}"), u "û");
  (Lit (u "\^{U}"), u "Û");
  (Lit (u "\c{c}"), u "ç");
  (Lit (u "\c{C}"), u "Ç");
  (Seq (Lit (u "\ss")) WordB, u "ß");
  (Seq (Lit (u "\ae")) WordB, u "æ");
  (Seq (Lit (u "\AE")) WordB, u "Æ");
  (Seq (Lit (u "\oe")) WordB, u "œ");
  (Seq (Lit (u "\OE")) WordB, u "Œ");
  (Seq (Lit (u "\o")) WordB, u "ø");
  (Seq (Lit (u "\O")) WordB, u "Ø");
  (Seq (Lit (u "\aa")) WordB, u "å");
  (Seq (Lit (u "\AA")) WordB, u "Å");
  (Seq (Lit (u "\textquestiondown")) WordB, u "¿");
  (Seq (Lit (u "\textexclamdown")) WordB, u "¡")
].

(** The brace-free shorthand forms. *)
Definition simple_mappings : list (regex * str) := [
  (Seq (Lit (u "\~n")) WordB, u "ñ");
  (Seq (Lit (u "\~N")) WordB, u "Ñ");
  (Seq (Lit (u "\'a")) WordB, u "á");
  (Seq (Lit (u "\'A")) WordB, u "Á");
  (Seq (Lit (u "\'e")) WordB, u "é");
  (Seq (Lit (u "\'E")) WordB, u "É");
  (Seq (Lit (u "\'i")) WordB, u "í");
  (Seq (Lit (u "\'I")) WordB, u "Í");
  (Seq (Lit (u "\'o")) WordB, u "ó");
  (Seq (Lit (u "\'O")) WordB, u "Ó");
  (Seq (Lit (u "\'u")) WordB, u "ú");
  (Seq (Lit (u "\'U")) WordB, u "Ú");
  (Seq (Lit (u "\`a")) WordB, u "à");
  (Seq (Lit (u "\`A")) WordB, u "À");
  (Seq (Lit (u "\`e")) WordB, u "è");
  (Seq (Lit (u "\`E")) WordB, u "È");
  (Seq (Lit (u "\`i")) WordB, u "ì");
  (Seq (Lit (u "\`I")) WordB, u "Ì");
  (Seq (Lit (u "\`o")) WordB, u "ò");
  (Seq (Lit (u "\`O")) WordB, u "Ò");
  (Seq (Lit (u "\`u")) WordB, u "ù");
  (Seq (Lit (u "\`U")) WordB, u "Ù");
  (Seq (Lit (backslash :: dquote :: u "a")) WordB, u "ä");
  (Seq (Lit (backslash :: dquote :: u "A")) WordB, u "Ä");
  (Seq (Lit (backslash :: dquote :: u "e")) WordB, u "ë");
  (Seq (Lit (backslash :: dquote :: u "E")) WordB, u "Ë");
  (Seq (Lit (backslash :: dquote :: u "i")) WordB, u "ï");
  (Seq (Lit (backslash :: dquote :: u "I")) WordB, u "Ï");
  (Seq (Lit (backslash :: dquote :: u "o")) WordB, u "ö");
  (Seq (Lit (backslash :: dquote :: u "O")) WordB, u "Ö");
  (Seq (Lit (backslash :: dquote :: u "u")) WordB, u "ü");
  (Seq (Lit (backslash :: dquote :: u "U")) WordB, u "Ü")
].

Definition apply_mappings (tbl : list (regex * str)) (value : str) : str :=
  foldl (fun v '(latex_pattern, unicode_char) =>
           re_sub latex_pattern [RText unicode_char] v) value tbl.

Definition not_brace (c : char) : bool := negb ((c =? lbrace) || (c =? rbrace)).

(** A brace pair around brace-free text, the text being group 1. *)
Definition brace_pair : regex :=
  Seq (Chr lbrace) (Seq (Group 1 (Star (Cls not_brace))) (Chr rbrace)).

(** A backslash, one or more ASCII letters, then any whitespace. *)
Definition command_word : regex :=
  Seq (Chr backslash) (Seq (Plus (Cls is_ascii_letter)) (Star (Cls is_space))).

(** A backslash and one character (group 1); the dot does not match a line
    feed. *)
Definition not_newline (c : char) : bool := negb (c =? newline).

Definition escaped_char : regex :=
  Seq (Chr backslash) (Group 1 (Cls not_newline)).

(** One or more whitespace characters. *)
Definition space_run : regex := Plus (Cls is_space).

(** The second argument of the replacement of the backtick.  In the source
    the argument opens with three consecutive quote characters, which start a
    triple-quoted literal; the literal runs to the next three consecutive
    quote characters, on the following line.  The two source lines are thus
    one statement, and no statement replaces the straight single quote. *)
Definition backtick_replacement : str :=
  u ")   # 左单引号" ++ [newline] ++ u "    value = value.replace("
    ++ [dquote; squote; dquote] ++ u ", ".

Definition pipeline (value : str) : str :=
  let value := apply_mappings latex_mappings value in
  let value := apply_mappings simple_mappings value in
  let value := re_sub brace_pair [RGroup 1] value in
  let value := replace (u "--") (u "–") value in
  let value := replace (u "---") (u "—") value in
  let value := replace (u "``") [dquote] value in
  let value := replace (u "''") [dquote] value in
  let value := replace (u "`") backtick_replacement value in
  let value := re_sub command_word [RText (u " ")] value in
  let value := re_sub escaped_char [RGroup 1] value in
  let value := re_sub space_run [RText (u " ")] value in
  strip value.

(** The argument is [None] or a string; both [None] and the empty string are
    falsy. *)
Definition clean_field_value (value : option str) : str :=
  match value with
  | None => []
  | Some [] => []
  | Some v => pipeline v
  end.

(** ** [parse_bibtex_file], from the text of the file on *)

Definition not_comma_space (c : char) : bool := negb ((c =? 44) || is_space c).

(** The record marker: an at sign, a word (group 1), an opening brace, a run
    of characters other than comma and whitespace (group 2), a comma. *)
Definition entry_pattern : regex :=
  Seq (Chr 64)
    (Seq (Group 1 (Plus (Cls is_word)))
       (Seq (Chr lbrace)
          (Seq (Group 2 (Plus (Cls not_comma_space))) (Chr 44)))).

(** The common start of every field pattern: the field name, an equals sign
    between optional whitespace, an opening brace. *)
Definition anchor (name : string) : regex :=
  Seq (Lit (u name))
    (Seq (Star (Cls is_space))
       (Seq (Chr 61) (Seq (Star (Cls is_space)) (Chr lbrace)))).

Definition not_rbrace (c : char) : bool := negb (c =? rbrace).

(** Group 1 is brace-free text followed by any number of brace pairs, each
    around brace-free text and followed by brace-free text. *)
Definition brace_group : regex :=
  Seq (Chr lbrace)
    (Seq (Star (Cls not_brace)) (Seq (Chr rbrace) (Star (Cls not_brace)))).

Definition balanced_value : regex :=
  Seq (Group 1 (Seq (Star (Cls not_brace)) (Star brace_group))) (Chr rbrace).

(** Group 1 is one or more characters other than the closing brace. *)
Definition scalar_value : regex :=
  Seq (Group 1 (Plus (Cls not_rbrace))) (Chr rbrace).

Definition balanced (name : string) : regex := Seq (anchor name) balanced_value.
Definition scalar (name : string) : regex := Seq (anchor name) scalar_value.

Definition field_patterns : list (string * regex) := [
  ("author", balanced "author");
  ("title", balanced "title");
  ("year", scalar "year");
  ("journal", balanced "journal");
  ("booktitle", balanced "booktitle");
  ("publisher", balanced "publisher");
  ("volume", scalar "volume");
  ("number", scalar "number");
  ("pages", scalar "pages");
  ("doi", scalar "doi");
  ("url", scalar "url");
  ("abstract", balanced "abstract");
  ("keywords", balanced "keywords");
  ("location", balanced "location");
  ("series", balanced "series");
  ("isbn", scalar "isbn");
  ("issn", scalar "issn");
  ("address", balanced "address");
  ("editor", balanced "editor");
  ("organization", balanced "organization");
  ("month", scalar "month");
  ("note", balanced "note");
  ("articleno", scalar "articleno");
  ("numpages", scalar "numpages");
  ("issue_date", scalar "issue_date")
].

(** One turn of the loop over the catalog: the pattern is searched in the
    record's text and, when found, its cleaned group 1 is stored under the
    field name. *)
Definition extract_field (entry_content : str) (entry : gmap string str)
    (item : string * regex) : gmap string str :=
  let '(field_name, pattern) := item in
  match re_search pattern entry_content with
  | Some mt =>
      <[field_name := clean_field_value (group 1 (m_groups mt))]> entry
  | None => entry
  end.

Definition extract_fields (entry_content : str) (entry : gmap string str)
  : gmap string str :=
  foldl (extract_field entry_content) entry field_patterns.

(** The end of record [i]: the start of the next marker, or the end of the
    text for the last one. *)
Definition end_pos (content : str) (entry_matches : list rematch) (i : nat)
  : nat :=
  match entry_matches !! (i + 1)%nat with
  | Some next => m_start next
  | None => length content
  end.

Record RawRecord : Type := MkRaw {
  entry_type : str;
  entry_key : str;
  entry_content : str
}.

(** The loop over the markers, up to the text of each record. *)
Definition segment (content : str) : list RawRecord :=
  let entry_matches := re_finditer entry_pattern content in
  imap (fun i mt =>
          MkRaw (lower (default [] (group 1 (m_groups mt))))
                (strip (default [] (group 2 (m_groups mt))))
                (slice content (m_start mt) (end_pos content entry_matches i)))
       entry_matches.

Definition structured (rec : RawRecord) : gmap string str :=
  extract_fields (entry_content rec)
    (<["key" := entry_key rec]> (<["type" := entry_type rec]> ∅)).

Definition parse_bibtex_file (content : str) : list (gmap string str) :=
  structured <$> segment content.

(** ** [print_statistics] and [export_to_files], up to the output calls *)

(** The counting loops of [print_statistics]: the dictionary that maps each
    value found under [field] (or the text "unknown" when the record has no
    such entry) to the number of records that have it. *)
Definition count_by (field : string) (entries : list (gmap string str))
  : gmap str nat :=
  foldl (fun counts entry =>
           let k := default (u "unknown") (entry !! field) in
           <[k := (default 0 (counts !! k) + 1)%nat]> counts) ∅ entries.

Definition type_counts := count_by "type".
Definition year_counts := count_by "year".

(** A spreadsheet cell of a row: the running number or a text. *)
Inductive cell : Type :=
| CInt : nat -> cell
| CStr : str -> cell.

(** The text columns of a row, in the order of the source: column title and
    the key it is read from. *)
Definition export_columns : list (str * string) := [
  (u "类型", "type");
  (u "引用键", "key");
  (u "标题", "title");
  (u "作者", "author");
  (u "年份", "year");
  (u "期刊", "journal");
  (u "会议", "booktitle");
  (u "出版商", "publisher");
  (u "卷", "volume");
  (u "期", "number");
  (u "页码", "pages");
  (u "DOI", "doi");
  (u "URL", "url");
  (u "关键词", "keywords");
  (u "摘要", "abstract");
  (u "地点", "location");
  (u "系列", "series");
  (u "ISBN", "isbn");
  (u "ISSN", "issn");
  (u "地址", "address");
  (u "编辑", "editor");
  (u "组织", "organization");
  (u "月份", "month");
  (u "备注", "note");
  (u "文章号", "articleno");
  (u "页数", "numpages");
  (u "发行日期", "issue_date")
].

(** The row of record number [i]; a missing key gives the empty text. *)
Definition export_row (i : nat) (entry : gmap string str) : list (str * cell) :=
  (u "序号", CInt i)
    :: map (fun col => (col.1, CStr (default [] (entry !! col.2))))
         export_columns.

(** The rows handed to the data frame, numbered from 1. *)
Definition export_rows (entries : list (gmap string str))
  : list (list (str * cell)) :=
  imap (fun i entry => export_row (S i) entry) entries.

(** The width given to a column from the texts of its cells: the greatest
    length plus two, at most fifty. *)
Definition adjusted_width (cell_texts : list str) : nat :=
  Nat.min
    (foldl (fun max_length t =>
              if Nat.ltb max_length (length t) then length t else max_length)
       0%nat cell_texts + 2)
    50.

(** The value of a row under a column title. *)
Fixpoint row_get (title : str) (row : list (str * cell)) : option cell :=
  match row with
  | [] => None
  | (t, c) :: row' =>
      if bool_decide (t = title) then Some c else row_get title row'
  end.

(** ** Vocabulary of the statements *)

(** The first character every match of [r] must start with, when the shape
    of [r] fixes one. *)
Fixpoint first_char (c : char) (r : regex) : bool :=
  match r with
  | Chr x => x =? c
  | Seq a _ => first_char c a
  | Group _ a => first_char c a
  | _ => false
  end.

Definition at_space (c : option char) : bool :=
  match c with Some x => is_space x | None => false end.

(** Whitespace already collapsed: every whitespace character is a single
    space and the character after it is not whitespace. *)
Fixpoint collapsed (s : str) : bool :=
  match s with
  | [] => true
  | c :: s' =>
      (if is_space c then (c =? space) && negb (at_space (head s')) else true)
      && collapsed s'
  end.

(** Collapsed, and with no whitespace at either end. *)
Definition ws_normal (s : str) : bool :=
  collapsed s && negb (at_space (head s)) && negb (at_space (last s)).

Fixpoint drop_while (f : char -> bool) (s : str) : str :=
  match s with
  | [] => []
  | c :: s' => if f c then drop_while f s' else s
  end.

(** A value with one level of nested braces: brace-free text, then any
    number of brace pairs around brace-free text, each followed by brace-free
    text. *)
Definition brace_free (s : str) : bool := forallb not_brace s.

Definition braced (gt : str * str) : str :=
  [lbrace] ++ gt.1 ++ [rbrace] ++ gt.2.

Definition one_level (t0 : str) (groups : list (str * str)) : str :=
  t0 ++ concat (map braced groups).

(** The text of record [i] computed from the marker offsets alone. *)
Fixpoint bodies (content : str) (starts : list nat) : list str :=
  match starts with
  | [] => []
  | a :: rest =>
      slice content a (default (length content) (head rest))
        :: bodies content rest
  end.

(** Every character that a step of the pipeline can write: the replacement
    letters of the two tables, the en-dash, the double quote, the text put
    in place of a backtick, and the space. *)
Definition introduced : str :=
  concat (latex_mappings.*2) ++ concat (simple_mappings.*2)
    ++ u "–" ++ [dquote] ++ backtick_replacement ++ [space].

(** The accent escapes with a brace-wrapped base letter, as they are written
    in a value, each with its letter: one spelling for each of the first 52
    rows of [latex_mappings], in the order of the table, the acute rows with
    their quote. *)
Definition braced_accents : list (str * str) := [
  (u "\~{n}", u "ñ");
  (u "\~{N}", u "Ñ");
  (u "\~{a}", u "ã");
  (u "\~{A}", u "Ã");
  (u "\~{o}", u "õ");
  (u "\~{O}", u "Õ");
  (u "\'{a}", u "á");
  (u "\'{A}", u "Á");
  (u "\'{e}", u "é");
  (u "\'{E}", u "É");
  (u "\'{i}", u "í");
  (u "\'{I}", u "Í");
  (u "\'{o}", u "ó");
  (u "\'{O}", u "Ó");
  (u "\'{u}", u "ú");
  (u "\'{U}", u "Ú");
  (u "\'{y}", u "ý");
  (u "\'{Y}", u "Ý");
  (u "\'{c}", u "ć");
  (u "\'{C}", u "Ć");
  (u "\`{a}", u "à");
  (u "\`{A}", u "À");
  (u "\`{e}", u "è");
  (u "\`{E}", u "È");
  (u "\`{i}", u "ì");
  (u "\`{I}", u "Ì");
  (u "\`{o}", u "ò");
  (u "\`{O}", u "Ò");
  (u "\`{u}", u "ù");
  (u "\`{U}", u "Ù");
  (backslash :: dquote :: u "{a}", u "ä");
  (backslash :: dquote :: u "{A}", u "Ä");
  (backslash :: dquote :: u "{e}", u "ë");
  (backslash :: dquote :: u "{E}", u "Ë");
  (backslash :: dquote :: u "{i}", u "ï");
  (backslash :: dquote :: u "{I}", u "Ï");
  (backslash :: dquote :: u "{o}", u "ö");
  (backslash :: dquote :: u "{O}", u "Ö");
  (backslash :: dquote :: u "{u}", u "ü");
  (backslash :: dquote :: u "{U}", u "Ü");
  (u "\^{a}", u "â");
  (u "\^{A}", u "Â");
  (u "\^{e}", u "ê");
  (u "\^{E}", u "Ê");
  (u "\^{i}", u "î");
  (u "\^{I}", u "Î");
  (u "\^{o}", u "ô");
  (u "\^{O}", u "Ô");
  (u "\^{u}", u "û");
  (u "\^{U}", u "Û");
  (u "\c{c}", u "ç");
  (u "\c{C}", u "Ç")
].

(** A backslash directly in front of a braced letter, with no accent
    character: the other spelling that each of the 14 acute rows of
    [latex_mappings] accepts, its quote being optional. *)
Definition bare_braced : list (str * str) := [
  (u "\{a}", u "á");
  (u "\{A}", u "Á");
  (u "\{e}", u "é");
  (u "\{E}", u "É");
  (u "\{i}", u "í");
  (u "\{I}", u "Í");
  (u "\{o}", u "ó");
  (u "\{O}", u "Ó");
  (u "\{u}", u "ú");
  (u "\{U}", u "Ú");
  (u "\{y}", u "ý");
  (u "\{Y}", u "Ý");
  (u "\{c}", u "ć");
  (u "\{C}", u "Ć")
].

(** The accent escapes in the brace-free shorthand form, each with its
    letter: one spelling for each row of [simple_mappings], in the order of
    the table. *)
Definition shorthand_accents : list (str * str) := [
  (u "\~n", u "ñ");
  (u "\~N", u "Ñ");
  (u "\'a", u "á");
  (u "\'A", u "Á");
  (u "\'e", u "é");
  (u "\'E", u "É");
  (u "\'i", u "í");
  (u "\'I", u "Í");
  (u "\'o", u "ó");
  (u "\'O", u "Ó");
  (u "\'u", u "ú");
  (u "\'U", u "Ú");
  (u "\`a", u "à");
  (u "\`A", u "À");
  (u "\`e", u "è");
  (u "\`E", u "È");
  (u "\`i", u "ì");
  (u "\`I", u "Ì");
  (u "\`o", u "ò");
  (u "\`O", u "Ò");
  (u "\`u", u "ù");
  (u "\`U", u "Ù");
  (backslash :: dquote :: u "a", u "ä");
  (backslash :: dquote :: u "A", u "Ä");
  (backslash :: dquote :: u "e", u "ë");
  (backslash :: dquote :: u "E", u "Ë");
  (backslash :: dquote :: u "i", u "ï");
  (backslash :: dquote :: u "I", u "Ï");
  (backslash :: dquote :: u "o", u "ö");
  (backslash :: dquote :: u "O", u "Ö");
  (backslash :: dquote :: u "u", u "ü");
  (backslash :: dquote :: u "U", u "Ü")
].

(** Characters with no role in the pipeline: not the backslash, the opening
    brace, the backtick, the hyphen or the straight single quote. *)
Definition harmless (c : char) : bool :=
  negb ((c =? backslash) || (c =? lbrace) || (c =? backtick)
        || (c =? hyphen) || (c =? squote)).

(** What can be left of a known text [e] after a match of [r] that starts
    at its beginning, whatever follows [e]: [Some e'] when the match may end
    inside [e] with [e'] left, [None] when it may run past the end of [e].
    The list covers every way the matcher goes. *)
Fixpoint residues (r : regex) (e : str) : list (option str) :=
  match r with
  | Eps => [Some e]
  | Chr c =>
      match e with
      | [] => [None]
      | x :: e' => if x =? c then [Some e'] else []
      end
  | Cls f =>
      match e with
      | [] => [None]
      | x :: e' => if f x then [Some e'] else []
      end
  | Seq a b =>
      residues a e ≫=
        (fun o => match o with None => [None] | Some e' => residues b e' end)
  | Star _ => [None]
  | Opt a => residues a e ++ [Some e]
  | Group _ a => residues a e
  | WordB => [Some e]
  end.

(** [r] cannot match at the beginning of [e], whatever follows. *)
Definition misses (r : regex) (e : str) : bool :=
  match residues r e with [] => true | _ => false end.

(** The first row of a table that does not miss [esc]. *)
Fixpoint first_live (tbl : list (regex * str)) (esc : str)
  : option (regex * str) :=
  match tbl with
  | [] => None
  | (p, c) :: tbl' =>
      if misses p esc then first_live tbl' esc else Some (p, c)
  end.

(** A row of the lists above: the escape is a backslash followed by text
    without backslash, and the letter is harmless. *)
Definition escape_shape (row : str * str) : bool :=
  match row.1 with
  | c :: e => (c =? backslash) && forallb (fun x => negb (x =? backslash)) e
  | [] => false
  end && forallb harmless row.2.

(** The table rewrites the escape of [row], followed by [post], to the
    letter of [row]: the first row of the table that does not miss the
    escape carries that letter, and its pattern matches exactly the
    escape. *)
Definition resolves_to (tbl : list (regex * str)) (post : str)
    (row : str * str) : Prop :=
  match first_live tbl row.1 with
  | Some (p, c) =>
      c = row.2
      /\ forall prev, match_at p prev (row.1 ++ post) = Some ([], post)
  | None => False
  end.

(** The two families of field patterns. *)
Inductive family : Type := Scalar | Balanced.

Definition family_pattern (fam : family) (name : string) : regex :=
  match fam with Scalar => scalar name | Balanced => balanced name end.

(** From the second character of [s] on, [r] is found nowhere. *)
Definition nowhere_after_first (r : regex) (s : str) : bool :=
  match s with
  | [] => true
  | c :: s' =>
      match search_go r 0 (Some c) s' with None => true | Some _ => false end
  end.

(** A field with an empty value, as it is written in a record. *)
Definition empty_field (name : string) (ws1 ws2 : str) : str :=
  u name ++ ws1 ++ [61] ++ ws2 ++ [lbrace; rbrace].

(** The iteration of a greedy star, by its fuel. *)
Definition star_loop (a : regex) (k : cont) : nat -> cont :=
  fix loop (fuel : nat) (cs : caps) (prev : option char) (s : str)
    : option (caps * str) :=
    match fuel with
    | O => k cs prev s
    | S fuel' =>
        orelse
          (rmatch a
             (fun cs' prev' s' =>
                if Nat.ltb (length s') (length s)
                then loop fuel' cs' prev' s' else None)
             cs prev s)
          (k cs prev s)
    end.

(** The character before the position reached after reading [w]. *)
Definition last_prev (prev : option char) (w : str) : option char :=
  match last w with Some c => Some c | None => prev end.

(** No attempt of [r] succeeds at a position inside [pre], in the text
    [pre ++ rest]. *)
Fixpoint no_match_within (r : regex) (prev : option char) (pre rest : str)
  : bool :=
  match pre with
  | [] => true
  | c :: pre' =>
      match match_at r prev (pre ++ rest) with
      | Some _ => false
      | None => no_match_within r (Some c) pre' rest
      end
  end.

(** The two families of the catalog. *)
Definition balanced_fields : list string :=
  ["author"; "title"; "journal"; "booktitle"; "publisher"; "abstract"; "keywords";
   "location"; "series"; "address"; "editor"; "organization"; "note"].

Definition scalar_fields : list string :=
  ["year"; "volume"; "number"; "pages"; "doi"; "url"; "isbn"; "issn";
   "month"; "articleno"; "numpages"; "issue_date"].

(** A record whose only field is [name], with an empty value. *)
Definition empty_field_record (name : string) : str :=
  u "@misc{k, " ++ u name ++ u " = {}}".

Ltac in_catalog_section :=
  unfold field_patterns;
  repeat first [apply list_elem_of_here | apply list_elem_of_further].

(** ** Properties of [str.replace] *)

Example utf8_sample : u "é–—" = [233; 8211; 8212].
Proof. reflexivity. Qed.

Lemma starts_with_true (old s : str) :
  starts_with old s = true <-> exists t, s = old ++ t.
Proof.
  unfold starts_with. rewrite bool_decide_eq_true. split.
  - intros H. exists (drop (length old) s).
    rewrite <- (take_drop (length old) s) at 1. by rewrite H.
  - intros [t ->]. by rewrite take_app_length.
Qed.

Lemma starts_with_cons_ne (c d : char) (old s : str) :
  c <> d -> starts_with (c :: old) (d :: s) = false.
Proof.
  intros Hne. unfold starts_with. apply bool_decide_eq_false.
  simpl. intros H. congruence.
Qed.

Lemma contains_cons (old : str) (c : char) (s : str) :
  contains old (c :: s) = starts_with old (c :: s) || contains old s.
Proof. reflexivity. Qed.

(** Text without an occurrence of [old] is left alone. *)
Lemma replace_go_absent (old new s : str) :
  contains old s = false -> replace_go old new 0 s = s.
Proof.
  induction s as [|c s IH]; [done|].
  rewrite contains_cons. intros [H1 H2]%orb_false_iff.
  cbn [replace_go]. rewrite H1. f_equal. by apply IH.
Qed.

Lemma replace_absent (old new s : str) :
  contains old s = false -> replace old new s = s.
Proof. apply replace_go_absent. Qed.

(** A longer needle that starts with [old] cannot occur where [old] does
    not. *)
Lemma contains_app_false (old ext s : str) :
  contains old s = false -> contains (old ++ ext) s = false.
Proof.
  induction s as [|c s IH].
  - cbn. intros [H _]%orb_false_iff. rewrite orb_false_r in *.
    destruct (starts_with (old ++ ext) []) eqn:E; [|done].
    apply starts_with_true in E as [t E].
    symmetry in E. apply app_eq_nil in E as [[-> _]%app_eq_nil _].
    by cbn in H.
  - rewrite !contains_cons. intros [H1 H2]%orb_false_iff.
    rewrite (IH H2), orb_false_r.
    destruct (starts_with (old ++ ext) (c :: s)) eqn:E; [|done].
    apply starts_with_true in E as [t E].
    assert (starts_with old (c :: s) = true) as Hs; [|congruence].
    apply starts_with_true. exists (ext ++ t). by rewrite E, <- app_assoc.
Qed.

(** After every pair [c c] has been replaced by one [e], no pair is left. *)
Lemma replace_pair_head (c e : char) (skip : nat) (s : str) :
  c <> e ->
  head (replace_go [c; c] [e] 0 s) = Some c ->
  head s = Some c /\ starts_with [c; c] s = false.
Proof.
  intros Hne. destruct s as [|d s]; [done|].
  cbn [replace_go]. destruct (starts_with [c; c] (d :: s)) eqn:E.
  - cbn. intros [=]. congruence.
  - cbn. intros [= ->]. done.
Qed.

Lemma replace_pair_gone (c e : char) (s : str) :
  c <> e ->
  forall skip, contains [c; c] (replace_go [c; c] [e] skip s) = false.
Proof.
  intros Hne. induction s as [|d s IH]; intros skip; [done|].
  cbn [replace_go]. destruct skip as [|k]; [|apply IH].
  destruct (starts_with [c; c] (d :: s)) eqn:E.
  - cbn [app]. rewrite contains_cons, IH, orb_false_r.
    by apply starts_with_cons_ne.
  - rewrite contains_cons, IH, orb_false_r.
    destruct (starts_with [c; c] (d :: replace_go [c; c] [e] 0 s)) eqn:E2;
      [|done].
    apply starts_with_true in E2 as [t E2]. injection E2 as -> E2.
    destruct (replace_pair_head c e 0 s Hne) as [Hh Hs].
    { by rewrite E2. }
    destruct s as [|d s]; [done|]. injection Hh as ->.
    assert (starts_with [c; c] (c :: c :: s) = true); [|congruence].
    apply starts_with_true. by exists s.
Qed.

(** The triple-hyphen replacement comes after the double-hyphen one and so
    never finds anything to replace. *)
Lemma triple_hyphen_never_fires (s : str) :
  replace (u "---") (u "—") (replace (u "--") (u "–") s)
  = replace (u "--") (u "–") s.
Proof.
  apply replace_absent.
  change (u "---") with ([hyphen; hyphen] ++ [hyphen]).
  apply contains_app_false.
  apply (replace_pair_gone hyphen 8211); done.
Qed.

(** ** Properties of the matcher *)

Lemma rmatch_first_char (c : char) (r : regex) :
  first_char c r = true ->
  forall k cs prev s, head s <> Some c -> rmatch r k cs prev s = None.
Proof.
  induction r as [|x|f|a IHa b IHb|a IHa|a IHa|n a IHa|]; cbn; try done.
  - intros ->%N.eqb_eq k cs prev [|y s] H; [done|].
    destruct (N.eqb_spec y c) as [->|]; [by destruct H|done].
  - intros H k cs prev s Hs. by apply IHa.
  - intros H k cs prev s Hs. by apply IHa.
Qed.

Lemma match_at_first_char (c : char) (r : regex) prev s :
  first_char c r = true -> head s <> Some c -> match_at r prev s = None.
Proof. intros. by eapply rmatch_first_char. Qed.

(** A substitution whose pattern must start with a character that the text
    does not contain changes nothing. *)
Lemma sub_go_absent (c : char) (r : regex) tpl :
  first_char c r = true ->
  forall s prev, c ∉ s -> sub_go r tpl 0 prev s = s.
Proof.
  intros Hr. induction s as [|d s IH]; intros prev Hc.
  - cbn. by rewrite (match_at_first_char c).
  - apply not_elem_of_cons in Hc as [Hd Hs].
    cbn [sub_go]. rewrite (match_at_first_char c); [|done|].
    + f_equal. by apply IH.
    + cbn. by intros [= ->].
Qed.

Lemma re_sub_absent (c : char) (r : regex) tpl s :
  first_char c r = true -> c ∉ s -> re_sub r tpl s = s.
Proof. intros. by eapply sub_go_absent. Qed.

Lemma apply_mappings_absent (c : char) tbl s :
  forallb (fun p => first_char c p.1) tbl = true ->
  c ∉ s -> apply_mappings tbl s = s.
Proof.
  unfold apply_mappings. induction tbl as [|[p ch] tbl IH]; [done|].
  cbn. intros [H1 H2]%andb_true_iff Hc.
  rewrite (re_sub_absent c); auto.
Qed.

Lemma latex_mappings_backslash :
  forallb (fun p => first_char backslash p.1) latex_mappings = true.
Proof. reflexivity. Qed.

Lemma simple_mappings_backslash :
  forallb (fun p => first_char backslash p.1) simple_mappings = true.
Proof. reflexivity. Qed.

Lemma rmatch_Seq a b k cs prev s :
  rmatch (Seq a b) k cs prev s = rmatch a (rmatch b k) cs prev s.
Proof. reflexivity. Qed.

Lemma rmatch_Chr_same c k cs prev s :
  rmatch (Chr c) k cs prev (c :: s) = k cs (Some c) s.
Proof. cbn. by rewrite N.eqb_refl. Qed.

Lemma rmatch_Chr c k cs prev s :
  rmatch (Chr c) k cs prev s =
  match s with
  | x :: s' => if x =? c then k cs (Some x) s' else None
  | [] => None
  end.
Proof. reflexivity. Qed.

Lemma rmatch_Cls f k cs prev s :
  rmatch (Cls f) k cs prev s =
  match s with
  | x :: s' => if f x then k cs (Some x) s' else None
  | [] => None
  end.
Proof. reflexivity. Qed.

Lemma rmatch_Star a k cs prev s :
  rmatch (Star a) k cs prev s = star_loop a k (length s) cs prev s.
Proof. reflexivity. Qed.

Lemma rmatch_Group n a k cs prev s :
  rmatch (Group n a) k cs prev s =
  rmatch a (fun cs' prev' s' =>
              k ((n, take (length s - length s') s) :: cs') prev' s')
    cs prev s.
Proof. reflexivity. Qed.

Lemma last_prev_cons prev c w :
  last_prev prev (c :: w) = last_prev (Some c) w.
Proof.
  unfold last_prev. destruct w as [|d w]; [done|].
  change (last (c :: d :: w)) with (last (d :: w)).
  destruct (last (d :: w)) eqn:E; [done|]. by apply last_None in E.
Qed.

(** A literal reads itself. *)
Lemma rmatch_Lit w k cs prev rest :
  rmatch (Lit w) k cs prev (w ++ rest) = k cs (last_prev prev w) rest.
Proof.
  revert prev. induction w as [|c w IH]; intros prev; [done|].
  cbn [Lit app]. rewrite rmatch_Seq, rmatch_Chr_same, IH.
  by rewrite last_prev_cons.
Qed.

(** A greedy star over a character class first tries the whole run; when
    the rest of the pattern succeeds from there, that is the match. *)
Lemma star_loop_cls_greedy f k cs rest res :
  from_option f false (head rest) = false ->
  forall run fuel prev,
    forallb f run = true ->
    (length run <= fuel)%nat ->
    k cs (last_prev prev run) rest = Some res ->
    star_loop (Cls f) k fuel cs prev (run ++ rest) = Some res.
Proof.
  intros Hrest. induction run as [|c run IH]; intros fuel prev Hf Hlen Hk.
  - cbn [app]. destruct fuel as [|fuel]; [done|].
    cbn. destruct rest as [|x rest]; [done|]. cbn in Hrest.
    by rewrite Hrest.
  - destruct fuel as [|fuel]; [cbn in Hlen; lia|].
    cbn in Hf. apply andb_true_iff in Hf as [Hc Hf].
    cbn [star_loop app rmatch]. rewrite Hc.
    replace (length (run ++ rest) <? length (c :: run ++ rest))%nat
      with true by (symmetry; apply Nat.ltb_lt; cbn; lia).
    fold (star_loop (Cls f) k).
    rewrite (IH fuel (Some c)); [done|done|cbn in Hlen; lia|].
    by rewrite <- (last_prev_cons prev).
Qed.

Lemma rmatch_star_cls_greedy f k cs prev run rest res :
  forallb f run = true ->
  from_option f false (head rest) = false ->
  k cs (last_prev prev run) rest = Some res ->
  rmatch (Star (Cls f)) k cs prev (run ++ rest) = Some res.
Proof.
  intros Hf Hrest Hk. rewrite rmatch_Star.
  apply star_loop_cls_greedy; auto. rewrite length_app. lia.
Qed.

Lemma drop_while_split f s :
  exists run, s = run ++ drop_while f s /\ forallb f run = true
              /\ from_option f false (head (drop_while f s)) = false.
Proof.
  induction s as [|c s (run & E & Hf & Hh)].
  - by exists [].
  - cbn [drop_while]. destruct (f c) eqn:Hc.
    + exists (c :: run). cbn. rewrite Hc. by rewrite <- E.
    + exists []. cbn. by rewrite Hc.
Qed.

(** With nothing after it, a star over a class reads the whole run. *)
Lemma rmatch_star_cls_accept f cs prev s :
  rmatch (Star (Cls f)) accept cs prev s = Some (cs, drop_while f s).
Proof.
  destruct (drop_while_split f s) as (run & E & Hf & Hh).
  rewrite E at 1. by apply rmatch_star_cls_greedy.
Qed.

Lemma last_prev_app prev a b :
  last_prev prev (a ++ b) = last_prev (last_prev prev a) b.
Proof.
  unfold last_prev. rewrite last_app.
  destruct (last b); [done|]. by destruct (last a).
Qed.

Lemma last_prev_braced prev g t :
  last_prev prev (braced (g, t)) = last_prev (Some rbrace) t.
Proof.
  unfold braced. cbn [fst snd app].
  by rewrite last_prev_cons, last_prev_app, last_prev_cons.
Qed.

Lemma head_groups_not_brace_free groups post :
  from_option not_brace false
    (head (concat (map braced groups) ++ rbrace :: post)) = false.
Proof. by destruct groups. Qed.

(** The star over brace groups reads every group of a one-level value and
    stops in front of the closing brace. *)
Lemma star_loop_groups k cs post res :
  forall groups fuel prev,
    forallb (fun gt => brace_free gt.1 && brace_free gt.2) groups = true ->
    (length groups <= fuel)%nat ->
    k cs (last_prev prev (concat (map braced groups))) (rbrace :: post)
      = Some res ->
    star_loop brace_group k fuel cs prev
      (concat (map braced groups) ++ rbrace :: post) = Some res.
Proof.
  induction groups as [|[g t] groups IH]; intros fuel prev Hg Hlen Hk.
  - cbn [map concat app]. destruct fuel as [|fuel]; [done|].
    cbn [star_loop]. rewrite (rmatch_first_char lbrace); done.
  - destruct fuel as [|fuel]; [cbn in Hlen; lia|].
    cbn in Hg. apply andb_true_iff in Hg as [Hg12 Hg].
    apply andb_true_iff in Hg12 as [Hg1 Hg2].
    cbn [star_loop]. unfold brace_group at 1.
    cbn [map concat]. unfold braced at 1 3. cbn [fst snd].
    rewrite <- !app_assoc. cbn [app].
    rewrite rmatch_Seq, rmatch_Chr_same, rmatch_Seq.
    rewrite (rmatch_star_cls_greedy _ _ _ _ g _ res); [done|done|done|].
    rewrite rmatch_Seq, rmatch_Chr_same.
    rewrite (rmatch_star_cls_greedy _ _ _ _ t _ res); [done|done| |].
    { apply head_groups_not_brace_free. }
    replace (length (concat (map braced groups) ++ rbrace :: post) <?
             length (lbrace :: g ++ rbrace :: t ++
                       concat (map braced groups) ++ rbrace :: post))%nat
      with true.
    2:{ symmetry. apply Nat.ltb_lt. cbn. rewrite !length_app. cbn.
        rewrite !length_app. cbn. lia. }
    fold (star_loop brace_group k). apply IH; [done|cbn in Hlen; lia|].
    rewrite <- Hk. f_equal. cbn [map concat].
    by rewrite last_prev_app, last_prev_braced.
Qed.

Lemma length_groups_le (groups : list (str * str)) (rest : str) :
  (length groups <= length (concat (map braced groups) ++ rest))%nat.
Proof.
  induction groups as [|[g t] groups IH]; cbn; [lia|].
  rewrite ?length_app in *. cbn. rewrite ?length_app. lia.
Qed.

Lemma rmatch_one_level k cs prev t0 groups post res :
  brace_free t0 = true ->
  forallb (fun gt => brace_free gt.1 && brace_free gt.2) groups = true ->
  k cs (last_prev (last_prev prev t0) (concat (map braced groups)))
    (rbrace :: post) = Some res ->
  rmatch (Seq (Star (Cls not_brace)) (Star brace_group)) k cs prev
    (one_level t0 groups ++ rbrace :: post) = Some res.
Proof.
  intros Ht0 Hg Hk. unfold one_level. rewrite <- app_assoc, rmatch_Seq.
  apply rmatch_star_cls_greedy; [done|apply head_groups_not_brace_free|].
  rewrite rmatch_Star.
  apply star_loop_groups; [done|apply length_groups_le|done].
Qed.

(** At its anchor, a brace-balanced field pattern captures the whole of a
    value with one level of nested braces. *)
Lemma match_at_balanced name prev ws1 ws2 t0 groups post :
  forallb is_space ws1 = true ->
  forallb is_space ws2 = true ->
  brace_free t0 = true ->
  forallb (fun gt => brace_free gt.1 && brace_free gt.2) groups = true ->
  match_at (balanced name) prev
    (u name ++ ws1 ++ [61] ++ ws2 ++ [lbrace] ++ one_level t0 groups
       ++ [rbrace] ++ post)
  = Some ([(1%nat, one_level t0 groups)], post).
Proof.
  intros Hw1 Hw2 Ht0 Hg.
  unfold match_at, balanced, anchor.
  rewrite !rmatch_Seq, rmatch_Lit, rmatch_Seq.
  apply rmatch_star_cls_greedy; [done|done|].
  cbn [app]. rewrite rmatch_Seq, rmatch_Chr_same, rmatch_Seq.
  apply rmatch_star_cls_greedy; [done|done|].
  rewrite rmatch_Chr_same.
  unfold balanced_value. rewrite rmatch_Seq, rmatch_Group.
  apply rmatch_one_level; [done|done|].
  rewrite rmatch_Chr_same. unfold accept. do 4 f_equal.
  apply take_app_length'. rewrite !length_app. cbn. lia.
Qed.

Lemma search_go_skip r pre rest :
  forall pos prev,
    no_match_within r prev pre rest = true ->
    search_go r pos prev (pre ++ rest)
    = search_go r (pos + length pre) (last_prev prev pre) rest.
Proof.
  induction pre as [|c pre IH]; intros pos prev H.
  - cbn [app length]. by rewrite Nat.add_0_r.
  - cbn [no_match_within] in H.
    destruct (match_at r prev ((c :: pre) ++ rest)) eqn:E; [done|].
    cbn [app search_go] in *. rewrite E, (IH _ _ H), last_prev_cons.
    f_equal. cbn. lia.
Qed.

(** ** Properties of the field extraction *)

Lemma field_names_NoDup : NoDup (field_patterns.*1).
Proof. apply (bool_decide_unpack _). by vm_compute. Qed.

Lemma extract_field_other body entry n p f :
  n <> f -> extract_field body entry (n, p) !! f = entry !! f.
Proof.
  intros Hne. cbn. destruct (re_search p body); [|done].
  by rewrite lookup_insert_ne.
Qed.

Lemma extract_over_other body (l : list (string * regex)) :
  forall entry f, f ∉ l.*1 ->
    foldl (extract_field body) entry l !! f = entry !! f.
Proof.
  induction l as [|[n p] l IH]; intros entry f Hf; [done|].
  cbn in Hf. apply not_elem_of_cons in Hf as [Hne Hf].
  cbn [foldl]. rewrite IH by done. by apply extract_field_other.
Qed.

Lemma extract_over_found body (l : list (string * regex)) :
  NoDup (l.*1) ->
  forall entry f pat, (f, pat) ∈ l ->
    foldl (extract_field body) entry l !! f =
    match re_search pat body with
    | Some mt => Some (clean_field_value (group 1 (m_groups mt)))
    | None => entry !! f
    end.
Proof.
  induction l as [|[n p] l IH]; intros Hnd entry f pat Hin.
  - by apply elem_of_nil in Hin.
  - cbn in Hnd. apply NoDup_cons in Hnd as [Hn Hnd].
    cbn [foldl]. apply elem_of_cons in Hin as [[= -> ->]|Hin].
    + rewrite extract_over_other by done. cbn.
      destruct (re_search p body); [|done]. by rewrite lookup_insert_eq.
    + rewrite (IH Hnd _ _ _ Hin).
      destruct (re_search pat body); [done|].
      apply extract_field_other. intros ->. apply Hn.
      by apply (list_elem_of_fmap_2 fst) in Hin.
Qed.

(** What the catalog loop leaves under a catalog name. *)
Lemma extract_fields_lookup body entry f pat :
  (f, pat) ∈ field_patterns ->
  extract_fields body entry !! f =
  match re_search pat body with
  | Some mt => Some (clean_field_value (group 1 (m_groups mt)))
  | None => entry !! f
  end.
Proof. apply extract_over_found, field_names_NoDup. Qed.

(** ** Properties of the segmentation *)

(** Whatever the pattern, the matches are reported left to right, at
    strictly increasing offsets inside the text. *)
Lemma finditer_go_starts r :
  forall s skip pos prev,
    Forall (fun x => pos <= x <= pos + length s)%nat
      (m_start <$> finditer_go r skip pos prev s)
    /\ StronglySorted lt (m_start <$> finditer_go r skip pos prev s).
Proof.
  induction s as [|c s IH]; intros skip pos prev.
  - cbn. destruct (match_at r prev []) as [[cs rest]|]; cbn.
    + split; repeat constructor; lia.
    + split; constructor.
  - cbn [finditer_go].
    assert (forall k p,
      Forall (fun x => pos < x <= pos + length (c :: s))%nat
        (m_start <$> finditer_go r k (S pos) p s)) as Hrest.
    { intros k p. destruct (IH k (S pos) p) as [Hb _].
      eapply Forall_impl; [exact Hb|]. cbn. intros; lia. }
    assert (forall k p,
      Forall (fun x => pos <= x <= pos + length (c :: s))%nat
        (m_start <$> finditer_go r k (S pos) p s)) as Hrest'.
    { intros k p. eapply Forall_impl; [apply Hrest|]. cbn. intros; lia. }
    destruct skip as [|j]; [|split; [apply Hrest'|apply IH]].
    destruct (match_at r prev (c :: s)) as [[cs rest]|];
      [|split; [apply Hrest'|apply IH]].
    cbn [fmap list_fmap m_start]. split.
    + constructor; [cbn; lia|apply Hrest'].
    + apply StronglySorted_cons. split; [|apply IH].
      eapply Forall_impl; [apply Hrest|]. cbn. intros; lia.
Qed.

Lemma finditer_starts r content :
  Forall (fun x => x <= length content)%nat (m_start <$> re_finditer r content)
  /\ StronglySorted lt (m_start <$> re_finditer r content).
Proof.
  destruct (finditer_go_starts r content 0 0 None) as [Hb Hs].
  split; [|done]. eapply Forall_impl; [exact Hb|]. cbn. intros; lia.
Qed.

Lemma end_pos_shift content pre m ms i :
  end_pos content (pre ++ m :: ms) (length pre + S i)
  = end_pos content ((pre ++ [m]) ++ ms) (length (pre ++ [m]) + i).
Proof.
  unfold end_pos. rewrite <- app_assoc. cbn [app].
  rewrite length_app. cbn [length].
  by replace (length pre + 1 + i + 1)%nat with (length pre + S i + 1)%nat by lia.
Qed.

Lemma slices_bodies content :
  forall ms pre,
    imap (fun i mt =>
            slice content (m_start mt)
              (end_pos content (pre ++ ms) (length pre + i))) ms
    = bodies content (m_start <$> ms).
Proof.
  induction ms as [|m ms IH]; intros pre; [done|].
  rewrite imap_cons. cbn [fmap list_fmap bodies]. f_equal.
  - f_equal. unfold end_pos.
    rewrite lookup_app_r by lia.
    replace (length pre + 0 + 1 - length pre)%nat with 1%nat by lia.
    cbn. by destruct ms.
  - rewrite <- (IH (pre ++ [m])). apply imap_ext. intros i mt _. cbn.
    by rewrite end_pos_shift.
Qed.

Lemma segment_bodies content :
  entry_content <$> segment content
  = bodies content (m_start <$> re_finditer entry_pattern content).
Proof.
  unfold segment. rewrite <- (slices_bodies content _ []).
  apply list_eq. intros i.
  rewrite list_lookup_fmap, !list_lookup_imap.
  by destruct (re_finditer entry_pattern content !! i).
Qed.

(** Slices between consecutive increasing offsets, the last one running to
    the end, add up to the text from the first offset on. *)
Lemma bodies_cover content :
  forall starts,
    StronglySorted lt starts ->
    Forall (fun x => x <= length content)%nat starts ->
    concat (bodies content starts)
    = from_option (fun a => drop a content) [] (head starts).
Proof.
  induction starts as [|a starts IH]; intros Hs Hb; [done|].
  apply StronglySorted_cons in Hs as [Hlt Hs].
  apply Forall_cons in Hb as [Ha Hb].
  cbn [bodies concat head from_option]. rewrite IH by done.
  unfold slice. destruct starts as [|b starts]; cbn [head default from_option].
  - rewrite app_nil_r. apply take_ge. rewrite length_drop. lia.
  - apply Forall_cons in Hlt as [Hab _]. apply Forall_cons in Hb as [Hb _].
    replace (drop b content) with (drop (b - a) (drop a content)).
    + apply take_drop.
    + rewrite drop_drop. f_equal. lia.
Qed.

Lemma bodies_lookup content :
  forall starts i a,
    starts !! i = Some a ->
    bodies content starts !! i
    = Some (slice content a (default (length content) (starts !! S i))).
Proof.
  induction starts as [|b starts IH]; intros i a H; [done|].
  destruct i as [|i].
  - injection H as ->. cbn. by destruct starts.
  - cbn in *. by apply IH.
Qed.

Lemma sorted_lookup_lt (l : list nat) :
  StronglySorted lt l ->
  forall i a b, l !! i = Some a -> l !! S i = Some b -> (a < b)%nat.
Proof.
  induction 1 as [|x l Hs IH Hlt]; intros i a b Ha Hb; [done|].
  destruct i as [|i].
  - injection Ha as ->. cbn in Hb.
    apply list_elem_of_lookup_2 in Hb.
    by apply (proj1 (Forall_forall _ _) Hlt).
  - cbn in *. by eapply IH.
Qed.

Lemma finditer_go_absent (c : char) (r : regex) :
  first_char c r = true ->
  forall s pos prev, c ∉ s -> finditer_go r 0 pos prev s = [].
Proof.
  intros Hr. induction s as [|d s IH]; intros pos prev Hc.
  - cbn. by rewrite (match_at_first_char c).
  - apply not_elem_of_cons in Hc as [Hd Hs].
    cbn [finditer_go]. rewrite (match_at_first_char c); [|done|].
    + by apply IH.
    + cbn. by intros [= ->].
Qed.

(** C2. For the N markers found in a text, segmentation returns N records in
    the order of the text; the text of record i is the slice from the start
    of marker i to the start of marker i+1 (to the end of the text for the
    last one), the slices are consecutive, and together they are the text
    from the first marker's start to the end. *)
Theorem segmentation_partitions_text (content : str) :
  let ms := re_finditer entry_pattern content in
  let recs := segment content in
  length recs = length ms
  /\ length (parse_bibtex_file content) = length ms
  /\ StronglySorted lt (m_start <$> ms)
  /\ (forall i mt, ms !! i = Some mt ->
        let e := default (length content) (m_start <$> ms !! S i) in
        (m_start mt <= e <= length content)%nat
        /\ exists rec, recs !! i = Some rec
            /\ entry_content rec = slice content (m_start mt) e
            /\ length (entry_content rec) = (e - m_start mt)%nat)
  /\ concat (entry_content <$> recs)
     = from_option (fun m0 => drop (m_start m0) content) [] (head ms).
Proof.
  intros ms recs.
  destruct (finditer_starts entry_pattern content) as [Hb Hs].
  fold ms in Hb, Hs.
  assert (length recs = length ms) as Hlen by apply length_imap.
  split; [done|]. split.
  { unfold parse_bibtex_file. by rewrite length_fmap. }
  split; [done|]. split.
  - intros i mt Hi e.
    assert ((m_start <$> ms) !! i = Some (m_start mt)) as Hi'.
    { by rewrite list_lookup_fmap, Hi. }
    assert (m_start mt <= e <= length content)%nat as He.
    { subst e. rewrite <- list_lookup_fmap.
      destruct ((m_start <$> ms) !! S i) as [b|] eqn:Hn; cbn.
      - split.
        + apply Nat.lt_le_incl. by eapply sorted_lookup_lt.
        + apply list_elem_of_lookup_2 in Hn.
          by apply (proj1 (Forall_forall _ _) Hb).
      - split; [|done]. apply list_elem_of_lookup_2 in Hi'.
        by apply (proj1 (Forall_forall _ _) Hb). }
    split; [done|].
    pose proof (bodies_lookup content _ _ _ Hi') as Hbody.
    rewrite <- segment_bodies, list_lookup_fmap in Hbody. fold recs in Hbody.
    destruct (recs !! i) as [rec|] eqn:Hrec; [|done].
    injection Hbody as Hbody. exists rec. split; [done|].
    rewrite list_lookup_fmap in Hbody. fold e in Hbody. split; [done|].
    rewrite Hbody. unfold slice. rewrite length_take, length_drop. lia.
  - subst recs. rewrite segment_bodies, bodies_cover by done.
    fold ms. by destruct ms.
Qed.

(** C7. A text without any record marker yields the empty sequence of
    records. *)
Theorem no_markers_no_records (content : str) :
  re_finditer entry_pattern content = [] ->
  segment content = [] /\ parse_bibtex_file content = [].
Proof.
  intros H. unfold parse_bibtex_file, segment. by rewrite H.
Qed.

(** In particular a text without an at sign has no marker. *)
Lemma no_at_sign_no_markers (content : str) :
  64 ∉ content -> re_finditer entry_pattern content = [].
Proof. intros H. by apply (finditer_go_absent 64). Qed.

(** ** Absent fields *)

(** When the matcher fails with a continuation, it fails with every
    continuation that fails at least where the first one does. *)
Lemma star_loop_none_mono a (k1 k2 : cont) :
  (forall k1' k2' : cont,
      (forall cs p s, k1' cs p s = None -> k2' cs p s = None) ->
      forall cs prev s, rmatch a k1' cs prev s = None ->
                        rmatch a k2' cs prev s = None) ->
  (forall cs p s, k1 cs p s = None -> k2 cs p s = None) ->
  forall fuel cs prev s,
    star_loop a k1 fuel cs prev s = None ->
    star_loop a k2 fuel cs prev s = None.
Proof.
  intros IHa Hk. induction fuel as [|fuel IH]; intros cs prev s.
  - apply Hk.
  - cbn [star_loop]. fold (star_loop a k1) (star_loop a k2).
    match goal with
    | |- orelse (rmatch a ?K1 _ _ _) _ = None ->
         orelse (rmatch a ?K2 _ _ _) _ = None =>
        assert (forall cs' p' s', K1 cs' p' s' = None -> K2 cs' p' s' = None)
          as HK;
        [ intros cs' p' s'; cbv beta;
          destruct (length s' <? length s)%nat; [apply IH|done]
        | destruct (rmatch a K1 cs prev s) eqn:E1; [done|];
          rewrite (IHa K1 K2 HK _ _ _ E1) ]
    end.
    apply Hk.
Qed.

Lemma rmatch_none_mono r :
  forall k1 k2 : cont,
    (forall cs p s, k1 cs p s = None -> k2 cs p s = None) ->
    forall cs prev s,
      rmatch r k1 cs prev s = None -> rmatch r k2 cs prev s = None.
Proof.
  induction r as [|x|f|a IHa b IHb|a IHa|a IHa|n a IHa|];
    intros k1 k2 Hk cs prev s.
  - apply Hk.
  - cbn. destruct s as [|y s]; [done|]. destruct (y =? x); [apply Hk|done].
  - cbn. destruct s as [|y s]; [done|]. destruct (f y); [apply Hk|done].
  - rewrite !rmatch_Seq. apply IHa. intros cs' p' s'. by apply IHb.
  - rewrite !rmatch_Star. by apply star_loop_none_mono.
  - cbn. destruct (rmatch a k1 cs prev s) eqn:E; [done|]. cbn. intros Hk1.
    rewrite (IHa k1 k2 Hk _ _ _ E). by apply Hk.
  - rewrite !rmatch_Group. apply IHa. intros cs' p' s'. apply Hk.
  - cbn. destruct (xorb _ _); [apply Hk|done].
Qed.

Lemma match_at_prefix_absent r1 r2 prev s :
  match_at r1 prev s = None -> match_at (Seq r1 r2) prev s = None.
Proof.
  unfold match_at. rewrite rmatch_Seq. by apply rmatch_none_mono.
Qed.

(** A pattern cannot be found where its first part is not. *)
Lemma search_go_prefix_absent r1 r2 s :
  forall pos prev,
    search_go r1 pos prev s = None -> search_go (Seq r1 r2) pos prev s = None.
Proof.
  induction s as [|c s IH]; intros pos prev; cbn [search_go].
  - destruct (match_at r1 prev []) as [[cs rest]|] eqn:E; [done|].
    by rewrite (match_at_prefix_absent _ _ _ _ E).
  - destruct (match_at r1 prev (c :: s)) as [[cs rest]|] eqn:E; [done|].
    rewrite (match_at_prefix_absent _ _ _ _ E). apply IH.
Qed.

Lemma catalog_shape :
  Forall (fun item => item.2 = balanced item.1 \/ item.2 = scalar item.1)
    field_patterns.
Proof.
  unfold field_patterns.
  repeat (constructor; [first [by left|by right]|]). constructor.
Qed.

Lemma anchor_absent_pattern_absent body f pat :
  (f, pat) ∈ field_patterns ->
  re_search (anchor f) body = None -> re_search pat body = None.
Proof.
  intros Hin H.
  pose proof (proj1 (Forall_forall _ _) catalog_shape _ Hin) as Hshape.
  cbn in Hshape. destruct Hshape as [->| ->];
    by apply search_go_prefix_absent.
Qed.

Lemma catalog_names_fresh f pat :
  (f, pat) ∈ field_patterns -> f <> "type" /\ f <> "key".
Proof.
  intros Hin. apply (list_elem_of_fmap_2 fst) in Hin. cbn in Hin.
  assert ("type" ∉ field_patterns.*1) as H1
    by (apply (bool_decide_unpack _); by vm_compute).
  assert ("key" ∉ field_patterns.*1) as H2
    by (apply (bool_decide_unpack _); by vm_compute).
  split; intros ->; done.
Qed.

(** C5. For every record and every field of the catalog: when the field's
    anchor is nowhere in the record's text, or more generally when the
    field's pattern matches nowhere in it, the record's mapping is produced
    and has no entry at all under the field name. *)
Theorem absent_field_is_omitted (content : str) (i : nat) (rec : RawRecord)
    (f : string) (pat : regex) :
  segment content !! i = Some rec ->
  (f, pat) ∈ field_patterns ->
  re_search (anchor f) (entry_content rec) = None
    \/ re_search pat (entry_content rec) = None ->
  exists e, parse_bibtex_file content !! i = Some e /\ e !! f = None.
Proof.
  intros Hrec Hin Habs. exists (structured rec). split.
  - unfold parse_bibtex_file. by rewrite list_lookup_fmap, Hrec.
  - assert (re_search pat (entry_content rec) = None) as Hnone.
    { destruct Habs; [by eapply anchor_absent_pattern_absent|done]. }
    unfold structured. rewrite (extract_fields_lookup _ _ f pat Hin), Hnone.
    destruct (catalog_names_fresh f pat Hin) as [Ht Hk].
    by rewrite !lookup_insert_ne, lookup_empty.
Qed.

(** ** Nested braces *)

Lemma search_go_here r pos prev s cs rest :
  match_at r prev s = Some (cs, rest) ->
  search_go r pos prev s
  = Some (MkMatch pos (pos + (length s - length rest)) cs).
Proof. intros H. destruct s; cbn [search_go]; by rewrite H. Qed.

Lemma re_search_balanced name pre ws1 ws2 t0 groups post :
  forallb is_space ws1 = true ->
  forallb is_space ws2 = true ->
  brace_free t0 = true ->
  forallb (fun gt => brace_free gt.1 && brace_free gt.2) groups = true ->
  let tail := u name ++ ws1 ++ [61] ++ ws2 ++ [lbrace]
                ++ one_level t0 groups ++ [rbrace] ++ post in
  no_match_within (balanced name) None pre tail = true ->
  exists mt, re_search (balanced name) (pre ++ tail) = Some mt
             /\ m_start mt = length pre
             /\ group 1 (m_groups mt) = Some (one_level t0 groups).
Proof.
  intros Hw1 Hw2 Ht0 Hg tail Hpre. unfold re_search.
  rewrite search_go_skip by done.
  erewrite search_go_here by (by apply match_at_balanced).
  eexists. split; [done|]. by cbn.
Qed.

(** C4, as amended.  When the text of a record has, at the first place
    where a brace-balanced field's pattern matches, the field name, an
    equals sign and a braced value with one level of nested braces, the
    record's mapping holds under that name the cleaned form of the whole
    value, up to the matching outer closing brace. *)
Theorem nested_braces_captured (content : str) (i : nat) (rec : RawRecord)
    (name : string) (pre ws1 ws2 t0 : str) (groups : list (str * str))
    (post : str) :
  segment content !! i = Some rec ->
  (name, balanced name) ∈ field_patterns ->
  forallb is_space ws1 = true ->
  forallb is_space ws2 = true ->
  brace_free t0 = true ->
  forallb (fun gt => brace_free gt.1 && brace_free gt.2) groups = true ->
  let tail := u name ++ ws1 ++ [61] ++ ws2 ++ [lbrace]
                ++ one_level t0 groups ++ [rbrace] ++ post in
  entry_content rec = pre ++ tail ->
  no_match_within (balanced name) None pre tail = true ->
  exists e, parse_bibtex_file content !! i = Some e
            /\ e !! name = Some (clean_field_value (Some (one_level t0 groups))).
Proof.
  intros Hrec Hin Hw1 Hw2 Ht0 Hg tail Hbody Hpre.
  exists (structured rec). split.
  - unfold parse_bibtex_file. by rewrite list_lookup_fmap, Hrec.
  - unfold structured. rewrite (extract_fields_lookup _ _ _ _ Hin), Hbody.
    destruct (re_search_balanced name pre ws1 ws2 t0 groups post)
      as (mt & Hmt & _ & Hv); [done..|].
    fold tail in Hmt. by rewrite Hmt, Hv.
Qed.

(** ** Whitespace collapsing and trimming *)

Lemma match_at_space_run prev s :
  match_at space_run prev s =
  match s with
  | c :: s' => if is_space c then Some ([], drop_while is_space s') else None
  | [] => None
  end.
Proof.
  unfold match_at, space_run, Plus. rewrite rmatch_Seq.
  destruct s as [|c s']; [done|]. cbn [rmatch].
  destruct (is_space c); [|done]. apply rmatch_star_cls_accept.
Qed.

Lemma sub_go_skip r tpl a :
  forall prev b,
    sub_go r tpl (length a) prev (a ++ b)
    = sub_go r tpl 0 (last_prev prev a) b.
Proof.
  induction a as [|c a IH]; intros prev b; [done|].
  cbn [length app sub_go]. by rewrite IH, last_prev_cons.
Qed.

Lemma drop_while_length f s : (length (drop_while f s) <= length s)%nat.
Proof.
  induction s as [|c s IH]; cbn; [lia|]. destruct (f c); cbn; lia.
Qed.

Lemma drop_while_head f s : at_space (head s) = false -> f = is_space ->
  drop_while f s = s.
Proof. intros H ->. destruct s as [|c s]; [done|]. cbn in *. by rewrite H. Qed.

Lemma sub_go_space_nil tpl prev : sub_go space_run tpl 0 prev [] = [].
Proof. cbn [sub_go]. by rewrite match_at_space_run. Qed.

Lemma sub_go_nonspace_step tpl prev c s' :
  is_space c = false ->
  sub_go space_run tpl 0 prev (c :: s')
  = c :: sub_go space_run tpl 0 (Some c) s'.
Proof. intros Hc. cbn [sub_go]. by rewrite match_at_space_run, Hc. Qed.

(** A whitespace run is replaced as a whole. *)
Lemma sub_go_space_step tpl prev c s' :
  is_space c = true ->
  exists p',
    sub_go space_run tpl 0 prev (c :: s')
    = expand tpl [] ++ sub_go space_run tpl 0 p' (drop_while is_space s').
Proof.
  intros Hc. cbn [sub_go]. rewrite match_at_space_run, Hc.
  destruct (drop_while_split is_space s') as (run & E & _ & _).
  revert E. generalize (drop_while is_space s'). intros dw ->.
  replace (length (c :: run ++ dw) - length dw)%nat with (S (length run))
    by (cbn; rewrite length_app; lia).
  exists (last_prev (Some c) run). f_equal. apply sub_go_skip.
Qed.

(** After the whitespace substitution every whitespace character is one
    space in front of a character that is not whitespace, or the last
    character. *)
Lemma collapse_collapsed n :
  forall s prev, (length s <= n)%nat ->
    collapsed (sub_go space_run [RText [space]] 0 prev s) = true
    /\ (at_space (head s) = false ->
        at_space (head (sub_go space_run [RText [space]] 0 prev s)) = false).
Proof.
  induction n as [|n IH]; intros s prev Hlen.
  { destruct s; [|cbn in Hlen; lia]. by rewrite sub_go_space_nil. }
  destruct s as [|c s']; [by rewrite sub_go_space_nil|].
  destruct (is_space c) eqn:Hc.
  - destruct (sub_go_space_step [RText [space]] prev c s' Hc) as [p' ->].
    destruct (IH (drop_while is_space s') p') as [Hcol Hhead].
    { pose proof (drop_while_length is_space s'). cbn in Hlen. lia. }
    destruct (drop_while_split is_space s') as (_ & _ & _ & Hdw).
    specialize (Hhead Hdw). split.
    + cbn. cbn in Hhead. by rewrite Hhead, Hcol.
    + cbn. by rewrite Hc.
  - rewrite sub_go_nonspace_step by done.
    destruct (IH s' (Some c)) as [Hcol _]; [cbn in Hlen; lia|]. split.
    + cbn [collapsed]. by rewrite Hc, Hcol.
    + by cbn.
Qed.

Lemma collapsed_cons c s :
  collapsed (c :: s)
  = (if is_space c then (c =? space) && negb (at_space (head s)) else true)
    && collapsed s.
Proof. reflexivity. Qed.

Lemma lstrip_collapsed s :
  collapsed s = true ->
  collapsed (lstrip s) = true /\ at_space (head (lstrip s)) = false.
Proof.
  destruct s as [|c s]; [done|]. cbn [collapsed lstrip].
  destruct (is_space c) eqn:Hc.
  - intros [[_ Hh%negb_true_iff]%andb_true_iff Hcol]%andb_true_iff.
    destruct s as [|d s]; [done|]. cbn in Hh. cbn [lstrip]. rewrite Hh.
    split; [done|]. by cbn.
  - intros Hcol. split; [|by cbn]. cbn [collapsed]. by rewrite Hc.
Qed.

Lemma rstrip_collapsed s :
  collapsed s = true ->
  collapsed (rstrip s) = true
  /\ at_space (last (rstrip s)) = false
  /\ (rstrip s = [] \/ head (rstrip s) = head s).
Proof.
  induction s as [|c s IH]; [by split; [|split; [|left]]|].
  cbn [collapsed]. intros [Hc Hcol]%andb_true_iff.
  destruct (IH Hcol) as (Hr & Hl & Hh). cbn [rstrip].
  destruct (rstrip s) as [|d t] eqn:Er.
  - destruct (is_space c) eqn:Hsp; [by split; [|split; [|left]]|].
    split; [cbn; by rewrite Hsp|]. split; [by cbn|by right].
  - destruct Hh as [?|Hh]; [done|]. split; [|split; [|by right]].
    + rewrite collapsed_cons, Hr, andb_true_r, Hh. exact Hc.
    + by rewrite last_cons_cons.
Qed.

(** The last two steps of the pipeline leave whitespace in normal form. *)
Lemma strip_collapse_normal s :
  ws_normal (strip (re_sub space_run [RText [space]] s)) = true.
Proof.
  unfold strip, re_sub.
  destruct (collapse_collapsed (length s) s None) as [Hcol _]; [done|].
  destruct (lstrip_collapsed _ Hcol) as [Hl Hlh].
  destruct (rstrip_collapsed _ Hl) as (Hr & Hrl & Hrh).
  unfold ws_normal. rewrite Hr, Hrl. cbn.
  destruct Hrh as [-> | ->]; [done|]. by rewrite Hlh.
Qed.

Lemma lstrip_id s : at_space (head s) = false -> lstrip s = s.
Proof. destruct s as [|c s]; [done|]. cbn. by intros ->. Qed.

Lemma rstrip_id s : at_space (last s) = false -> rstrip s = s.
Proof.
  induction s as [|c s IH]; [done|]. cbn [rstrip].
  destruct s as [|d s].
  - cbn. by intros ->.
  - rewrite last_cons_cons. intros H. by rewrite (IH H).
Qed.

Lemma collapse_id s :
  forall prev, collapsed s = true -> at_space (last s) = false ->
    sub_go space_run [RText [space]] 0 prev s = s.
Proof.
  induction s as [|c s IH]; intros prev; [by rewrite sub_go_space_nil|].
  cbn [collapsed]. intros [Hc Hcol]%andb_true_iff Hlast.
  assert (at_space (last s) = false) as Hlast'.
  { destruct s; [done|]. by rewrite last_cons_cons in Hlast. }
  destruct (is_space c) eqn:Hsp.
  - apply andb_true_iff in Hc as [->%N.eqb_eq Hh%negb_true_iff].
    destruct (sub_go_space_step [RText [space]] prev space s Hsp) as [p' ->].
    rewrite (drop_while_head is_space s) by done.
    cbn. f_equal. by apply IH.
  - rewrite sub_go_nonspace_step by done. f_equal. by apply IH.
Qed.

(** Text with whitespace in normal form passes the last two steps
    unchanged. *)
Lemma strip_collapse_id s :
  ws_normal s = true ->
  strip (re_sub space_run [RText [space]] s) = s.
Proof.
  unfold ws_normal.
  intros [[Hcol Hh%negb_true_iff]%andb_true_iff Hl%negb_true_iff]%andb_true_iff.
  unfold re_sub. rewrite collapse_id by done.
  unfold strip. by rewrite lstrip_id, rstrip_id.
Qed.

(** ** Characters that survive the pipeline *)

Lemma contains_absent_char (c : char) (old s : str) :
  c ∉ s -> contains (c :: old) s = false.
Proof.
  induction s as [|d s IH]; intros Hc.
  - done.
  - apply not_elem_of_cons in Hc as [Hd Hs].
    rewrite contains_cons, IH by done. rewrite orb_false_r.
    by apply starts_with_cons_ne.
Qed.

Lemma contains_single_false (c : char) (s : str) :
  contains [c] s = false -> c ∉ s.
Proof.
  induction s as [|d s IH]; [intros _; apply not_elem_of_nil|].
  rewrite contains_cons. intros [H1 H2]%orb_false_iff.
  apply not_elem_of_cons. split; [|by apply IH].
  intros ->. assert (starts_with [d] (d :: s) = true); [|congruence].
  apply starts_with_true. by exists s.
Qed.

(** Replacing a character by text that does not contain it removes it. *)
Lemma replace_single_gone (c : char) (new : str) :
  c ∉ new -> forall s skip, c ∉ replace_go [c] new skip s.
Proof.
  intros Hnew. induction s as [|d s IH]; intros skip;
    [apply not_elem_of_nil|].
  cbn [replace_go]. destruct skip as [|k]; [|apply IH].
  destruct (starts_with [c] (d :: s)) eqn:E.
  - apply not_elem_of_app. split; [done|apply IH].
  - apply not_elem_of_cons. split; [|apply IH].
    intros ->. assert (starts_with [d] (d :: s) = true); [|congruence].
    apply starts_with_true. by exists s.
Qed.

(** A substitution cannot introduce a character that neither the text nor
    the expansions of its matches contain. *)
Lemma sub_go_notin (c : char) r tpl :
  (forall prev s cs rest,
      match_at r prev s = Some (cs, rest) -> c ∉ s -> c ∉ expand tpl cs) ->
  forall s skip prev, c ∉ s -> c ∉ sub_go r tpl skip prev s.
Proof.
  intros Hexp. induction s as [|d s IH]; intros skip prev Hc.
  - cbn. destruct (match_at r prev []) as [[cs rest]|] eqn:E; [|done].
    by eapply Hexp.
  - apply not_elem_of_cons in Hc as [Hd Hs]. cbn [sub_go].
    destruct skip as [|j]; [|by apply IH].
    destruct (match_at r prev (d :: s)) as [[cs rest]|] eqn:E.
    + apply not_elem_of_app. split.
      * eapply Hexp; [exact E|]. by apply not_elem_of_cons.
      * destruct (length (d :: s) - length rest)%nat.
        -- apply not_elem_of_cons. split; [done|by apply IH].
        -- by apply IH.
    + apply not_elem_of_cons. split; [done|by apply IH].
Qed.

Lemma match_at_escaped_char prev s cs rest :
  match_at escaped_char prev s = Some (cs, rest) ->
  exists y, cs = [(1%nat, [y])] /\ s = backslash :: y :: rest.
Proof.
  unfold match_at, escaped_char. rewrite rmatch_Seq.
  destruct s as [|x [|y t]]; cbn [rmatch].
  - done.
  - by destruct (x =? backslash).
  - destruct (N.eqb_spec x backslash) as [->|]; [|done].
    destruct (not_newline y); [|done]. unfold accept. intros [= <- <-].
    exists y. split; [|done]. do 2 f_equal.
    cbn [length].
    replace (S (length t) - length t)%nat with 1%nat by lia.
    done.
Qed.

Lemma lstrip_notin (c : char) s : c ∉ s -> c ∉ lstrip s.
Proof.
  induction s as [|d s IH]; [done|]. intros Hc. cbn.
  destruct (is_space d); [|done].
  apply IH. by apply not_elem_of_cons in Hc as [_ Hs].
Qed.

Lemma rstrip_notin (c : char) s : c ∉ s -> c ∉ rstrip s.
Proof.
  induction s as [|d s IH]; [done|]. intros Hc.
  apply not_elem_of_cons in Hc as [Hd Hs]. specialize (IH Hs). cbn.
  destruct (rstrip s) as [|e t].
  - destruct (is_space d); [done|]. by apply not_elem_of_cons.
  - by apply not_elem_of_cons.
Qed.

Lemma strip_notin (c : char) s : c ∉ s -> c ∉ strip s.
Proof. intros. by apply rstrip_notin, lstrip_notin. Qed.

(** No backtick is left in a cleaned value. *)
Lemma pipeline_no_backtick v : backtick ∉ pipeline v.
Proof.
  unfold pipeline. cbv zeta. apply strip_notin. unfold re_sub.
  apply sub_go_notin.
  { intros prev s cs rest _ _. by apply (bool_decide_unpack _). }
  apply sub_go_notin.
  { intros prev s cs rest (y & -> & ->)%match_at_escaped_char Hs.
    cbn. apply not_elem_of_cons in Hs as [_ [Hy _]%not_elem_of_cons].
    apply not_elem_of_cons. split; [done|apply not_elem_of_nil]. }
  apply sub_go_notin.
  { intros prev s cs rest _ _. by apply (bool_decide_unpack _). }
  apply (replace_single_gone backtick).
  by apply (bool_decide_unpack _).
Qed.

(** ** Re-running the normalization *)

Lemma clean_field_value_pipeline v :
  clean_field_value (Some v) = pipeline v.
Proof. destruct v; [by vm_compute|done]. Qed.

Lemma clean_field_value_normal v :
  ws_normal (clean_field_value (Some v)) = true.
Proof. rewrite clean_field_value_pipeline. apply strip_collapse_normal. Qed.

(** A value without backslash, brace, backtick, double hyphen and doubled
    straight quote, and with whitespace in normal form, is a fixed point of
    the pipeline. *)
Lemma pipeline_fixed_point w :
  contains [backslash] w = false ->
  contains [lbrace] w = false ->
  backtick ∉ w ->
  contains [hyphen; hyphen] w = false ->
  contains [squote; squote] w = false ->
  ws_normal w = true ->
  pipeline w = w.
Proof.
  intros Hbs%contains_single_false Hlb%contains_single_false Hbt Hhy Hsq Hws.
  unfold pipeline. cbv zeta.
  rewrite (apply_mappings_absent backslash _ _ latex_mappings_backslash Hbs).
  rewrite (apply_mappings_absent backslash _ _ simple_mappings_backslash Hbs).
  rewrite (re_sub_absent lbrace brace_pair) by done.
  rewrite (replace_absent (u "--")) by done.
  rewrite (replace_absent (u "---"))
    by (by apply (contains_app_false [hyphen; hyphen] [hyphen])).
  rewrite (replace_absent (u "``")) by (by apply contains_absent_char).
  rewrite (replace_absent [squote; squote]) by done.
  rewrite (replace_absent (u "`")) by (by apply contains_absent_char).
  rewrite (re_sub_absent backslash command_word) by done.
  rewrite (re_sub_absent backslash escaped_char) by done.
  by apply strip_collapse_id.
Qed.

(** C3, as amended.  When the cleaned form of a value has no backslash, no
    brace, no double hyphen and no doubled straight quote left, cleaning it
    again returns it unchanged. *)
Theorem clean_twice_on_settled_output (v : str) :
  let w := clean_field_value (Some v) in
  contains [backslash] w = false ->
  contains [lbrace] w = false ->
  contains [rbrace] w = false ->
  contains [hyphen; hyphen] w = false ->
  contains [squote; squote] w = false ->
  clean_field_value (Some w) = w.
Proof.
  intros w Hbs Hlb _ Hhy Hsq.
  rewrite (clean_field_value_pipeline w). apply pipeline_fixed_point; try done.
  - subst w. rewrite clean_field_value_pipeline. apply pipeline_no_backtick.
  - apply clean_field_value_normal.
Qed.

(** ** What a successful match went through *)

Lemma orelse_Some {A} (x y : option A) (a : A) :
  orelse x y = Some a -> x = Some a \/ (x = None /\ y = Some a).
Proof. destruct x; cbn; intros H; [by left|by right]. Qed.

Lemma star_loop_sound a (k : cont) :
  (forall (k' : cont) cs prev s res,
      rmatch a k' cs prev s = Some res ->
      exists cs' p' s',
        k' cs' p' s' = Some res /\ (length s' <= length s)%nat) ->
  forall fuel cs prev s res,
    star_loop a k fuel cs prev s = Some res ->
    exists cs' p' s', k cs' p' s' = Some res /\ (length s' <= length s)%nat.
Proof.
  intros IHa. induction fuel as [|fuel IH]; intros cs prev s res.
  - cbn. intros H. by exists cs, prev, s.
  - cbn [star_loop]. fold (star_loop a k).
    intros [H|[_ H]]%orelse_Some; [|by exists cs, prev, s].
    apply IHa in H as (cs1 & p1 & s1 & H & Hlen). cbv beta in H.
    destruct (length s1 <? length s)%nat; [|done].
    apply IH in H as (cs2 & p2 & s2 & H & Hlen2).
    exists cs2, p2, s2. split; [done|lia].
Qed.

(** A successful match ends in a successful call of its continuation, on a
    text no longer than the one it started from. *)
Lemma rmatch_sound r :
  forall (k : cont) cs prev s res,
    rmatch r k cs prev s = Some res ->
    exists cs' p' s', k cs' p' s' = Some res /\ (length s' <= length s)%nat.
Proof.
  induction r as [|x|f|a IHa b IHb|a IHa|a IHa|n a IHa|];
    intros k cs prev s res.
  - cbn. intros H. by exists cs, prev, s.
  - cbn. destruct s as [|y s]; [done|]. destruct (y =? x); [|done].
    intros H. exists cs, (Some y), s. split; [done|cbn; lia].
  - cbn. destruct s as [|y s]; [done|]. destruct (f y); [|done].
    intros H. exists cs, (Some y), s. split; [done|cbn; lia].
  - rewrite rmatch_Seq. intros (cs1 & p1 & s1 & H & Hlen)%IHa.
    apply IHb in H as (cs2 & p2 & s2 & H & Hlen2).
    exists cs2, p2, s2. split; [done|lia].
  - rewrite rmatch_Star. by apply star_loop_sound.
  - cbn. intros [H|[_ H]]%orelse_Some; [by eapply IHa|by exists cs, prev, s].
  - rewrite rmatch_Group. intros (cs1 & p1 & s1 & H & Hlen)%IHa.
    by eexists _, p1, s1.
  - cbn. destruct (xorb _ _); [|done]. intros H. by exists cs, prev, s.
Qed.

Lemma search_go_Some r s :
  forall pos prev mt,
    search_go r pos prev s = Some mt ->
    exists prev' s' rest, match_at r prev' s' = Some (m_groups mt, rest).
Proof.
  induction s as [|c s IH]; intros pos prev mt; cbn [search_go].
  - destruct (match_at r prev []) as [[cs rest]|] eqn:E; [|done].
    intros [= <-]. by exists prev, [], rest.
  - destruct (match_at r prev (c :: s)) as [[cs rest]|] eqn:E.
    + intros [= <-]. by exists prev, (c :: s), rest.
    + apply IH.
Qed.

(** A simple scalar pattern needs at least one character between the
    braces: what it captures is never empty. *)
Lemma scalar_capture_nonempty name body mt :
  re_search (scalar name) body = Some mt ->
  exists v, group 1 (m_groups mt) = Some v /\ v <> [].
Proof.
  intros (prev & s & rest & H)%search_go_Some. revert H.
  unfold match_at, scalar. rewrite rmatch_Seq.
  intros (cs1 & p1 & s1 & H & _)%rmatch_sound. revert H.
  unfold scalar_value, Plus.
  rewrite rmatch_Seq, rmatch_Group, rmatch_Seq, rmatch_Cls.
  destruct s1 as [|y s1]; [done|].
  destruct (not_rbrace y); [|done].
  intros (cs2 & p2 & s2 & H & Hlen)%rmatch_sound. revert H.
  cbv beta. rewrite rmatch_Chr. destruct s2 as [|z s2]; [done|].
  destruct (z =? rbrace); [|done]. unfold accept. intros [= <- _].
  eexists. split; [by cbn|].
  cbn [length] in Hlen.
  destruct (length s1 - length s2)%nat eqn:E; [lia|done].
Qed.

(** A brace-balanced pattern accepts empty braces and captures the empty
    string. *)
Lemma balanced_capture_empty name prev ws1 ws2 post :
  forallb is_space ws1 = true ->
  forallb is_space ws2 = true ->
  match_at (balanced name) prev
    (u name ++ ws1 ++ [61] ++ ws2 ++ [lbrace; rbrace] ++ post)
  = Some ([(1%nat, [])], post).
Proof.
  intros Hw1 Hw2.
  by apply (match_at_balanced name prev ws1 ws2 [] [] post).
Qed.

(** ** Concrete values *)

(** C1. On [text--more---end] the code yields an en-dash for the double
    hyphen, and an en-dash followed by a hyphen, not an em-dash, for the
    triple hyphen. *)
Theorem triple_hyphen_example :
  clean_field_value (Some (u "text--more---end")) = u "text–more–-end"
  /\ clean_field_value (Some (u "text--more---end")) <> u "text–more—end".
Proof.
  assert (clean_field_value (Some (u "text--more---end"))
          = u "text–more–-end") as E by (vm_compute; reflexivity).
  split; [exact E|]. rewrite E. vm_compute. discriminate.
Qed.

(** C10. The empty string and [None] are returned as the empty string, by
    the first branch of the function. *)
Theorem falsy_value_is_empty :
  clean_field_value None = [] /\ clean_field_value (Some []) = [].
Proof. split; reflexivity. Qed.

(** A record whose only field has an empty value yields one mapping; its
    entry under the field name is missing for a simple scalar field and is
    the empty string for a brace-balanced field.  A match of a simple scalar
    pattern never captures the empty string, and a brace-balanced pattern
    matches empty braces and captures the empty string. *)
Lemma lone_empty_field :
  Forall (fun name =>
            (fun e : gmap string str => e !! name)
              <$> parse_bibtex_file (empty_field_record name) = [None])
    scalar_fields
  /\ Forall (fun name =>
               (fun e : gmap string str => e !! name)
                 <$> parse_bibtex_file (empty_field_record name) = [Some []])
       balanced_fields
  /\ (forall name body mt,
        re_search (scalar name) body = Some mt ->
        exists v, group 1 (m_groups mt) = Some v /\ v <> [])
  /\ (forall name prev ws1 ws2 post,
        forallb is_space ws1 = true ->
        forallb is_space ws2 = true ->
        match_at (balanced name) prev
          (u name ++ ws1 ++ [61] ++ ws2 ++ [lbrace; rbrace] ++ post)
        = Some ([(1%nat, [])], post)).
Proof.
  split; [|split; [|split]].
  - repeat (constructor; [vm_compute; reflexivity|]). constructor.
  - repeat (constructor; [vm_compute; reflexivity|]). constructor.
  - apply scalar_capture_nonempty.
  - apply balanced_capture_empty.
Qed.

(** ** Further behaviour on concrete texts *)

(** The two families cover the catalog. *)
Lemma catalog_families :
  field_patterns
  ≡ₚ ((fun name => (name, balanced name)) <$> balanced_fields)
     ++ ((fun name => (name, scalar name)) <$> scalar_fields).
Proof.
  apply NoDup_Permutation.
  - eapply (NoDup_fmap_1 fst), field_names_NoDup.
  - eapply (NoDup_fmap_1 fst). apply (bool_decide_unpack _). by vm_compute.
  - intros [n p]. split.
    + intros Hin. repeat (apply elem_of_cons in Hin as [->|Hin];
        [cbn; repeat first [apply list_elem_of_here
                           |apply list_elem_of_further]|]).
      by apply elem_of_nil in Hin.
    + intros Hin. cbn in Hin.
      repeat (apply elem_of_cons in Hin as [[= -> ->]|Hin];
        [unfold field_patterns;
         repeat first [apply list_elem_of_here|apply list_elem_of_further]|]).
      by apply elem_of_nil in Hin.
Qed.

(** Dropping a backslash can bring two hyphens, or two straight quotes,
    together after the steps that would have rewritten them. *)
Example hyphens_meet_late :
  clean_field_value (Some (u "-\-")) = u "--"
  /\ clean_field_value (Some (u "--")) = u "–".
Proof. split; vm_compute; reflexivity. Qed.

Example quotes_meet_late :
  clean_field_value (Some (u "'\'")) = [squote; squote]
  /\ clean_field_value (Some [squote; squote]) = [dquote].
Proof. split; vm_compute; reflexivity. Qed.

(** The search is for the leftmost match, and the pattern of [title] also
    matches inside [booktitle]. *)
Example title_inside_booktitle :
  (fun e : gmap string str => e !! "title")
    <$> parse_bibtex_file (u "@book{k, booktitle = {B}, title = {T}}")
  = [Some (u "B")].
Proof. vm_compute; reflexivity. Qed.

(** ** The shape of a record marker *)

(** What a star over a character class has read satisfies the class. *)
Lemma star_loop_cls_sound f (k : cont) :
  forall fuel cs prev s res,
    star_loop (Cls f) k fuel cs prev s = Some res ->
    exists run rest,
      s = run ++ rest /\ forallb f run = true
      /\ k cs (last_prev prev run) rest = Some res.
Proof.
  induction fuel as [|fuel IH]; intros cs prev s res.
  - cbn. intros H. by exists [], s.
  - cbn [star_loop]. fold (star_loop (Cls f) k). rewrite rmatch_Cls.
    intros [H|[_ H]]%orelse_Some; [|by exists [], s].
    destruct s as [|x s]; [done|]. destruct (f x) eqn:Hx; [|done].
    destruct (length s <? length (x :: s))%nat; [|done].
    apply IH in H as (run & rest & -> & Hf & Hk).
    exists (x :: run), rest. split; [done|]. split; [by cbn; rewrite Hx|].
    by rewrite last_prev_cons.
Qed.

(** One or more characters of a class, as a capturing group: the group is
    the non-empty run that was read. *)
Lemma rmatch_group_plus_cls n f (k : cont) cs prev s res :
  rmatch (Group n (Plus (Cls f))) k cs prev s = Some res ->
  exists run rest p,
    s = run ++ rest /\ run <> [] /\ forallb f run = true
    /\ k ((n, run) :: cs) p rest = Some res.
Proof.
  unfold Plus. rewrite rmatch_Group, rmatch_Seq, rmatch_Cls.
  destruct s as [|x s]; [done|]. destruct (f x) eqn:Hx; [|done].
  rewrite rmatch_Star.
  intros (run & rest & -> & Hf & Hk)%star_loop_cls_sound.
  exists (x :: run), rest, (last_prev (Some x) run).
  split; [done|]. split; [done|]. split; [by cbn; rewrite Hx|].
  rewrite <- Hk. do 3 f_equal.
  symmetry. apply (take_app_length' (x :: run)). cbn. rewrite length_app. lia.
Qed.

Lemma match_at_entry_pattern prev s cs rest :
  match_at entry_pattern prev s = Some (cs, rest) ->
  exists t k,
    s = [64] ++ t ++ [lbrace] ++ k ++ [44] ++ rest
    /\ cs = [(2%nat, k); (1%nat, t)]
    /\ t <> [] /\ forallb is_word t = true
    /\ k <> [] /\ forallb not_comma_space k = true.
Proof.
  unfold match_at, entry_pattern. rewrite rmatch_Seq, rmatch_Chr.
  destruct s as [|x s]; [done|].
  destruct (N.eqb_spec x 64) as [->|]; [|done]. rewrite rmatch_Seq.
  intros (t & s1 & p1 & -> & Ht & Hw & H)%rmatch_group_plus_cls. revert H.
  rewrite rmatch_Seq, rmatch_Chr. destruct s1 as [|y s1]; [done|].
  destruct (N.eqb_spec y lbrace) as [->|]; [|done]. rewrite rmatch_Seq.
  intros (k & s2 & p2 & -> & Hk & Hc & H)%rmatch_group_plus_cls. revert H.
  rewrite rmatch_Chr. destruct s2 as [|z s2]; [done|].
  destruct (N.eqb_spec z 44) as [->|]; [|done]. unfold accept.
  intros [= <- <-]. by exists t, k.
Qed.

(** Every reported match is a successful attempt at its offset. *)
Lemma finditer_go_matches r :
  forall s skip pos prev mt,
    mt ∈ finditer_go r skip pos prev s ->
    (pos <= m_start mt)%nat
    /\ exists prev' rest,
         match_at r prev' (drop (m_start mt - pos) s)
         = Some (m_groups mt, rest).
Proof.
  induction s as [|c s IH]; intros skip pos prev mt.
  - cbn. destruct (match_at r prev []) as [[cs rest]|] eqn:E.
    + intros ->%list_elem_of_singleton. cbn. split; [lia|].
      rewrite Nat.sub_diag. by exists prev, rest.
    + by intros ?%elem_of_nil.
  - assert (forall k p, mt ∈ finditer_go r k (S pos) p s ->
              (pos <= m_start mt)%nat
              /\ exists prev' rest,
                   match_at r prev' (drop (m_start mt - pos) (c :: s))
                   = Some (m_groups mt, rest)) as Hrest.
    { intros k p (Hle & prev' & rest & H)%IH. split; [lia|].
      exists prev', rest.
      replace (m_start mt - pos)%nat with (S (m_start mt - S pos)) by lia.
      done. }
    cbn [finditer_go]. destruct skip as [|j]; [|apply Hrest].
    destruct (match_at r prev (c :: s)) as [[cs rest]|] eqn:E;
      [|apply Hrest].
    intros [->|Hin]%elem_of_cons; [|by eapply Hrest].
    cbn. split; [lia|]. rewrite Nat.sub_diag. by exists prev, rest.
Qed.

(** X1. Every marker found in a text stands at its offset as an at
    sign, a non-empty run of word characters, an opening brace, a non-empty
    run without comma or whitespace, and a comma; these two runs are its
    groups 1 and 2, which are therefore always bound. *)
Theorem marker_shape (content : str) (mt : rematch) :
  mt ∈ re_finditer entry_pattern content ->
  exists t k rest,
    drop (m_start mt) content = [64] ++ t ++ [lbrace] ++ k ++ [44] ++ rest
    /\ group 1 (m_groups mt) = Some t
    /\ group 2 (m_groups mt) = Some k
    /\ t <> [] /\ forallb is_word t = true
    /\ k <> [] /\ forallb not_comma_space k = true.
Proof.
  intros (_ & prev & rest & H)%finditer_go_matches.
  rewrite Nat.sub_0_r in H.
  apply match_at_entry_pattern in H as (t & k & E & Hcs & Ht & Hw & Hk & Hc).
  exists t, k, rest. rewrite Hcs. by repeat split.
Qed.

(** ** Records and their mappings *)

Lemma segment_lookup content i rec :
  segment content !! i = Some rec ->
  exists mt,
    re_finditer entry_pattern content !! i = Some mt
    /\ entry_key rec = strip (default [] (group 2 (m_groups mt)))
    /\ entry_content rec
       = slice content (m_start mt)
           (end_pos content (re_finditer entry_pattern content) i).
Proof.
  unfold segment. rewrite list_lookup_imap.
  destruct (re_finditer entry_pattern content !! i) as [mt|]; [|done].
  cbn. intros [= <-]. by exists mt.
Qed.

Lemma lstrip_no_space k :
  forallb not_comma_space k = true -> lstrip k = k.
Proof.
  destruct k as [|c k]; [done|]. cbn.
  intros [Hc _]%andb_true_iff. unfold not_comma_space in Hc.
  apply negb_true_iff, orb_false_iff in Hc as [_ ->]. done.
Qed.

Lemma rstrip_no_space k :
  forallb not_comma_space k = true -> rstrip k = k.
Proof.
  induction k as [|c k IH]; [done|]. cbn.
  intros [Hc Hk]%andb_true_iff. rewrite (IH Hk).
  unfold not_comma_space in Hc.
  apply negb_true_iff, orb_false_iff in Hc as [_ ->]. by destruct k.
Qed.

(** X2. The key of every record is non-empty and has neither comma nor
    whitespace in it: trimming the captured key never removes anything. *)
Theorem record_key_shape (content : str) (i : nat) (rec : RawRecord) :
  segment content !! i = Some rec ->
  entry_key rec <> []
  /\ forallb not_comma_space (entry_key rec) = true
  /\ exists mt, re_finditer entry_pattern content !! i = Some mt
                /\ group 2 (m_groups mt) = Some (entry_key rec).
Proof.
  intros (mt & Hmt & Hkey & _)%segment_lookup.
  pose proof (list_elem_of_lookup_2 _ _ _ Hmt) as Hin.
  apply finditer_go_matches in Hin as (_ & prev & rest & H).
  apply match_at_entry_pattern in H as (t & k & _ & Hcs & _ & _ & Hk & Hc).
  rewrite Hcs in Hkey. cbn in Hkey. unfold strip in Hkey.
  rewrite lstrip_no_space, rstrip_no_space in Hkey by done.
  rewrite Hkey. split; [done|]. split; [done|].
  exists mt. split; [done|]. by rewrite Hcs.
Qed.

(** X3. The text of every record is non-empty and begins with the at
    sign of its marker. *)
Theorem record_text_starts_at_marker (content : str) (i : nat)
    (rec : RawRecord) :
  segment content !! i = Some rec ->
  exists tail, entry_content rec = 64 :: tail.
Proof.
  intros (mt & Hmt & _ & Hbody)%segment_lookup.
  pose proof (list_elem_of_lookup_2 _ _ _ Hmt) as Hin.
  apply finditer_go_matches in Hin as (_ & prev & rest & H).
  rewrite Nat.sub_0_r in H.
  apply match_at_entry_pattern in H as (t & k & E & _).
  assert (m_start mt < length content)%nat as Hlt.
  { destruct (decide (m_start mt < length content)%nat) as [|Hge]; [done|].
    rewrite drop_ge in E by lia. done. }
  assert (m_start mt
          < end_pos content (re_finditer entry_pattern content) i)%nat as He.
  { unfold end_pos.
    destruct (re_finditer entry_pattern content !! (i + 1)%nat)
      as [nx|] eqn:Hnx; [|done].
    destruct (finditer_starts entry_pattern content) as [_ Hs].
    apply (sorted_lookup_lt _ Hs i).
    - by rewrite list_lookup_fmap, Hmt.
    - replace (S i) with (i + 1)%nat by lia. by rewrite list_lookup_fmap, Hnx. }
  rewrite Hbody. unfold slice. rewrite E. cbn [app].
  destruct (end_pos content (re_finditer entry_pattern content) i
            - m_start mt)%nat as [|n] eqn:En; [lia|].
  cbn. by eexists.
Qed.

(** X4. The field loop never overwrites the type and the key of a
    record. *)
Theorem type_and_key_kept (content : str) (i : nat) (rec : RawRecord) :
  segment content !! i = Some rec ->
  exists e, parse_bibtex_file content !! i = Some e
            /\ e !! "type" = Some (entry_type rec)
            /\ e !! "key" = Some (entry_key rec).
Proof.
  intros Hrec. exists (structured rec). split.
  { unfold parse_bibtex_file. by rewrite list_lookup_fmap, Hrec. }
  unfold structured, extract_fields. split.
  - rewrite extract_over_other
      by (apply (bool_decide_unpack _); by vm_compute).
    by rewrite lookup_insert_ne, lookup_insert_eq.
  - rewrite extract_over_other
      by (apply (bool_decide_unpack _); by vm_compute).
    by rewrite lookup_insert_eq.
Qed.

Lemma extract_over_keys body (l : list (string * regex)) :
  forall entry f v,
    foldl (extract_field body) entry l !! f = Some v ->
    entry !! f = Some v \/ f ∈ l.*1.
Proof.
  induction l as [|[n p] l IH]; intros entry f v H; [by left|].
  cbn [foldl] in H. apply IH in H as [H|H].
  - cbn in H. destruct (re_search p body); [|by left].
    destruct (decide (n = f)) as [->|Hne].
    + right. cbn. apply list_elem_of_here.
    + rewrite lookup_insert_ne in H by done. by left.
  - right. cbn. by apply list_elem_of_further.
Qed.

(** X5. A record mapping has no other keys than type, key and the names
    of the catalog. *)
Theorem mapping_keys_bounded (rec : RawRecord) (f : string) (v : str) :
  structured rec !! f = Some v ->
  f = "type" \/ f = "key" \/ f ∈ field_patterns.*1.
Proof.
  unfold structured, extract_fields.
  intros [H|H]%extract_over_keys; [|by right; right].
  destruct (decide (f = "key")) as [|Hk]; [by right; left|].
  destruct (decide (f = "type")) as [|Ht]; [by left|].
  rewrite lookup_insert_ne in H by done.
  rewrite lookup_insert_ne in H by done.
  by rewrite lookup_empty in H.
Qed.

(** X6. When the pattern of a catalog field matches in the text of a
    record, the mapping holds under the field name the cleaned group 1 of
    the leftmost match; no later turn of the loop overwrites it. *)
Theorem present_field_is_stored (rec : RawRecord) (f : string) (pat : regex)
    (mt : rematch) :
  (f, pat) ∈ field_patterns ->
  re_search pat (entry_content rec) = Some mt ->
  structured rec !! f = Some (clean_field_value (group 1 (m_groups mt))).
Proof.
  intros Hin Hmt. unfold structured.
  by rewrite (extract_fields_lookup _ _ f pat Hin), Hmt.
Qed.

(** X7. A text without an at sign yields no record. *)
Theorem no_at_sign_no_records (content : str) :
  64 ∉ content -> parse_bibtex_file content = [].
Proof.
  intros H. unfold parse_bibtex_file, segment, re_finditer.
  by rewrite (finditer_go_absent 64).
Qed.

(** ** Simple scalar values, and the title inside the book title *)

Lemma re_search_at r pre tl cs rest :
  no_match_within r None pre tl = true ->
  match_at r (last_prev None pre) tl = Some (cs, rest) ->
  exists mt, re_search r (pre ++ tl) = Some mt
             /\ m_start mt = length pre /\ m_groups mt = cs.
Proof.
  intros Hpre Hm. unfold re_search.
  rewrite search_go_skip by done. erewrite search_go_here by exact Hm.
  by eexists.
Qed.

(** At its anchor, a simple scalar pattern captures everything up to the
    first closing brace. *)
Lemma match_at_scalar name prev ws1 ws2 v post :
  forallb is_space ws1 = true ->
  forallb is_space ws2 = true ->
  v <> [] ->
  forallb not_rbrace v = true ->
  match_at (scalar name) prev
    (u name ++ ws1 ++ [61] ++ ws2 ++ [lbrace] ++ v ++ [rbrace] ++ post)
  = Some ([(1%nat, v)], post).
Proof.
  intros Hw1 Hw2 Hv Hnb.
  unfold match_at, scalar, anchor.
  rewrite !rmatch_Seq, rmatch_Lit, rmatch_Seq.
  apply rmatch_star_cls_greedy; [done|done|].
  cbn [app]. rewrite rmatch_Seq, rmatch_Chr_same, rmatch_Seq.
  apply rmatch_star_cls_greedy; [done|done|].
  rewrite rmatch_Chr_same.
  unfold scalar_value, Plus. rewrite rmatch_Seq, rmatch_Group, rmatch_Seq.
  destruct v as [|x v]; [done|]. cbn in Hnb.
  apply andb_true_iff in Hnb as [Hx Hnb].
  cbn [app]. rewrite rmatch_Cls, Hx.
  apply rmatch_star_cls_greedy; [done|done|].
  rewrite rmatch_Chr_same. unfold accept. do 4 f_equal.
  apply (take_app_length' (x :: v)). cbn. rewrite !length_app. cbn. lia.
Qed.

(** X8. When the text of a record has, at the first place where a
    simple scalar field's pattern matches, the field name, an equals sign
    and a braced non-empty value without closing brace, the mapping holds
    under that name the cleaned form of the value. *)
Theorem scalar_value_captured (content : str) (i : nat) (rec : RawRecord)
    (name : string) (pre ws1 ws2 v post : str) :
  segment content !! i = Some rec ->
  (name, scalar name) ∈ field_patterns ->
  forallb is_space ws1 = true ->
  forallb is_space ws2 = true ->
  v <> [] ->
  forallb not_rbrace v = true ->
  let tail := u name ++ ws1 ++ [61] ++ ws2 ++ [lbrace]
                ++ v ++ [rbrace] ++ post in
  entry_content rec = pre ++ tail ->
  no_match_within (scalar name) None pre tail = true ->
  exists e, parse_bibtex_file content !! i = Some e
            /\ e !! name = Some (clean_field_value (Some v)).
Proof.
  intros Hrec Hin Hw1 Hw2 Hv Hnb tail Hbody Hpre.
  exists (structured rec). split.
  - unfold parse_bibtex_file. by rewrite list_lookup_fmap, Hrec.
  - unfold structured. rewrite (extract_fields_lookup _ _ _ _ Hin), Hbody.
    destruct (re_search_at (scalar name) pre tail [(1%nat, v)] post)
      as (mt & -> & _ & ->); [done|by apply match_at_scalar|done].
Qed.

(** X9. The pattern of [title] also matches inside [booktitle]:
    when the book title comes before any other place where the title
    pattern matches, the mapping holds the book title's value under both
    names. *)
Theorem title_taken_from_booktitle (content : str) (i : nat)
    (rec : RawRecord) (pre ws1 ws2 t0 : str) (groups : list (str * str))
    (post : str) :
  segment content !! i = Some rec ->
  forallb is_space ws1 = true ->
  forallb is_space ws2 = true ->
  brace_free t0 = true ->
  forallb (fun gt => brace_free gt.1 && brace_free gt.2) groups = true ->
  let value := ws1 ++ [61] ++ ws2 ++ [lbrace] ++ one_level t0 groups
                 ++ [rbrace] ++ post in
  entry_content rec = pre ++ u "booktitle" ++ value ->
  no_match_within (balanced "booktitle") None pre (u "booktitle" ++ value)
    = true ->
  no_match_within (balanced "title") None (pre ++ u "book")
    (u "title" ++ value) = true ->
  exists e, parse_bibtex_file content !! i = Some e
            /\ e !! "booktitle"
               = Some (clean_field_value (Some (one_level t0 groups)))
            /\ e !! "title" = e !! "booktitle".
Proof.
  intros Hrec Hw1 Hw2 Ht0 Hg value Hbody Hpre1 Hpre2.
  exists (structured rec). split.
  { unfold parse_bibtex_file. by rewrite list_lookup_fmap, Hrec. }
  assert (structured rec !! "booktitle"
          = Some (clean_field_value (Some (one_level t0 groups)))) as Hb.
  { unfold structured.
    rewrite (extract_fields_lookup _ _ "booktitle" (balanced "booktitle"))
      by in_catalog_section.
    rewrite Hbody.
    destruct (re_search_at (balanced "booktitle") pre
                (u "booktitle" ++ value) [(1%nat, one_level t0 groups)] post)
      as (mt & -> & _ & ->); [done| |done].
    by apply match_at_balanced. }
  split; [done|]. rewrite Hb. unfold structured.
  rewrite (extract_fields_lookup _ _ "title" (balanced "title"))
    by in_catalog_section.
  rewrite Hbody.
  change (pre ++ u "booktitle" ++ value)
    with (pre ++ (u "book" ++ u "title") ++ value).
  rewrite <- (app_assoc (u "book")), (app_assoc pre).
  destruct (re_search_at (balanced "title") (pre ++ u "book")
              (u "title" ++ value) [(1%nat, one_level t0 groups)] post)
    as (mt & -> & _ & ->); [done| |done].
  by apply match_at_balanced.
Qed.

(** ** What cleaning can and cannot write *)

Lemma replace_go_notin (c : char) (old new : str) :
  c ∉ new -> forall s skip, c ∉ s -> c ∉ replace_go old new skip s.
Proof.
  intros Hnew. induction s as [|d s IH]; intros skip Hc; [done|].
  apply not_elem_of_cons in Hc as [Hd Hs]. cbn [replace_go].
  destruct skip as [|j]; [|by apply IH].
  destruct (starts_with old (d :: s)).
  - apply not_elem_of_app. split; [done|by apply IH].
  - apply not_elem_of_cons. split; [done|by apply IH].
Qed.

Lemma re_sub_text_notin (c : char) r (ch : str) s :
  c ∉ ch -> c ∉ s -> c ∉ re_sub r [RText ch] s.
Proof.
  intros Hch Hs. apply sub_go_notin; [|done].
  intros prev s' cs rest _ _. cbn. by rewrite app_nil_r.
Qed.

Lemma apply_mappings_notin (c : char) tbl :
  c ∉ concat (tbl.*2) -> forall s, c ∉ s -> c ∉ apply_mappings tbl s.
Proof.
  unfold apply_mappings. induction tbl as [|[p ch] tbl IH]; intros Hc s Hs.
  - done.
  - cbn in Hc. apply not_elem_of_app in Hc as [Hch Hc].
    cbn [foldl]. apply IH; [done|]. by apply re_sub_text_notin.
Qed.

Lemma match_at_brace_pair prev s cs rest :
  match_at brace_pair prev s = Some (cs, rest) ->
  exists n s1, s = lbrace :: s1 /\ cs = [(1%nat, take n s1)].
Proof.
  unfold match_at, brace_pair. rewrite rmatch_Seq, rmatch_Chr.
  destruct s as [|x s1]; [done|].
  destruct (N.eqb_spec x lbrace) as [->|]; [|done].
  rewrite rmatch_Seq, rmatch_Group, rmatch_Star.
  intros (run & s' & -> & _ & H)%star_loop_cls_sound. revert H.
  rewrite rmatch_Chr. destruct s' as [|y s']; [done|].
  destruct (y =? rbrace); [|done]. unfold accept. intros [= <- _].
  by eexists _, _.
Qed.

Lemma take_notin (c : char) n (s : str) : c ∉ s -> c ∉ take n s.
Proof.
  intros Hs Hin. apply Hs. by apply (subseteq_take n).
Qed.

(** X10. Cleaning writes no character outside a fixed list: a
    character that is neither in the value nor in that list is not in the
    cleaned value.  The em-dash is not in the list. *)
Theorem clean_writes_only_listed (c : char) (v : str) :
  c ∉ introduced -> c ∉ v -> c ∉ clean_field_value (Some v).
Proof.
  unfold introduced. intros Hc Hv.
  apply not_elem_of_app in Hc as [Hlatex Hc].
  apply not_elem_of_app in Hc as [Hsimple Hc].
  apply not_elem_of_app in Hc as [Hen Hc].
  apply not_elem_of_app in Hc as [Hdq Hc].
  apply not_elem_of_app in Hc as [Hbt Hsp].
  rewrite clean_field_value_pipeline. unfold pipeline. cbv zeta.
  rewrite triple_hyphen_never_fires.
  apply strip_notin, re_sub_text_notin; [done|].
  apply sub_go_notin.
  { intros prev s cs rest (y & -> & ->)%match_at_escaped_char Hs. cbn.
    apply not_elem_of_cons in Hs as [_ [Hy _]%not_elem_of_cons].
    apply not_elem_of_cons. split; [done|apply not_elem_of_nil]. }
  apply re_sub_text_notin; [done|].
  apply replace_go_notin; [done|].
  apply replace_go_notin; [done|].
  apply replace_go_notin; [done|].
  apply replace_go_notin; [done|].
  apply sub_go_notin.
  { intros prev s cs rest (n & s1 & -> & ->)%match_at_brace_pair Hs. cbn.
    rewrite app_nil_r. apply take_notin.
    by apply not_elem_of_cons in Hs as [_ Hs]. }
  apply apply_mappings_notin; [done|].
  by apply apply_mappings_notin.
Qed.

(** X11. Whatever the value, the cleaned value contains no
    backtick. *)
Theorem cleaned_value_has_no_backtick (value : option str) :
  backtick ∉ clean_field_value value.
Proof.
  destruct value as [v|]; [|apply not_elem_of_nil].
  rewrite clean_field_value_pipeline. apply pipeline_no_backtick.
Qed.

(** X12. Whatever the value, the cleaned value has its whitespace
    in normal form: every whitespace character is a single space between
    two characters that are not whitespace. *)
Theorem cleaned_value_whitespace_normal (value : option str) :
  ws_normal (clean_field_value value) = true.
Proof.
  destruct value as [v|]; [|done]. apply clean_field_value_normal.
Qed.

(** X13. A value without backslash, opening brace, backtick, double
    hyphen and doubled straight quote only has its whitespace collapsed and
    trimmed; when its whitespace is already in normal form it is returned
    unchanged. *)
Theorem plain_text_only_collapsed (v : str) :
  contains [backslash] v = false ->
  contains [lbrace] v = false ->
  contains [backtick] v = false ->
  contains [hyphen; hyphen] v = false ->
  contains [squote; squote] v = false ->
  clean_field_value (Some v) = strip (re_sub space_run [RText [space]] v)
  /\ (ws_normal v = true -> clean_field_value (Some v) = v).
Proof.
  intros Hbs%contains_single_false Hlb%contains_single_false
         Hbt%contains_single_false Hhy Hsq.
  assert (clean_field_value (Some v)
          = strip (re_sub space_run [RText [space]] v)) as E.
  { rewrite clean_field_value_pipeline. unfold pipeline. cbv zeta.
    rewrite (apply_mappings_absent backslash _ _ latex_mappings_backslash Hbs).
    rewrite (apply_mappings_absent backslash _ _ simple_mappings_backslash Hbs).
    rewrite (re_sub_absent lbrace brace_pair) by done.
    rewrite (replace_absent (u "--")) by done.
    rewrite (replace_absent (u "---"))
      by (by apply (contains_app_false [hyphen; hyphen] [hyphen])).
    rewrite (replace_absent (u "``")) by (by apply contains_absent_char).
    rewrite (replace_absent [squote; squote]) by done.
    rewrite (replace_absent (u "`")) by (by apply contains_absent_char).
    rewrite (re_sub_absent backslash command_word) by done.
    by rewrite (re_sub_absent backslash escaped_char) by done. }
  split; [done|]. intros Hws. rewrite E. by apply strip_collapse_id.
Qed.

(** ** The statistics and the rows of the table *)

Lemma count_by_snoc field entries e :
  count_by field (entries ++ [e])
  = <[default (u "unknown") (e !! field) :=
        (default 0 (count_by field entries
                      !! default (u "unknown") (e !! field)) + 1)%nat]>
      (count_by field entries).
Proof. unfold count_by. by rewrite foldl_snoc. Qed.

(** X14. The counting loop maps a text to the number of records that
    carry it under the field (records without the field count under
    "unknown"), and has no entry for a text that no record carries. *)
Theorem count_by_counts (field : string) (entries : list (gmap string str))
    (k : str) :
  count_by field entries !! k
  = let n := length (filter (fun e => default (u "unknown") (e !! field) = k)
                       entries) in
    if Nat.eqb n 0 then None else Some n.
Proof.
  induction entries as [|e entries IH] using rev_ind; [done|].
  rewrite count_by_snoc, filter_app, length_app. cbv zeta in *.
  destruct (decide (default (u "unknown") (e !! field) = k)) as [E|Hne].
  - rewrite filter_cons_True by done. rewrite E, lookup_insert_eq, IH.
    cbn [length filter].
    destruct (length (filter _ entries)) as [|n]; cbn.
    + done.
    + replace (n + 1)%nat with (S n) by lia. done.
  - rewrite lookup_insert_ne, IH, filter_cons_False by done.
    cbn [length filter]. by rewrite Nat.add_0_r.
Qed.

Lemma foldl_max (cells : list str) :
  forall a,
    foldl (fun max_length t =>
             if Nat.ltb max_length (length t) then length t else max_length)
      a cells
    = Nat.max a (max_list_with length cells).
Proof.
  induction cells as [|t cells IH]; intros a; [cbn; lia|].
  cbn [foldl max_list_with]. rewrite IH.
  destruct (Nat.ltb_spec a (length t)); lia.
Qed.

Lemma max_list_with_ge (cells : list str) (t : str) :
  t ∈ cells -> (length t <= max_list_with length cells)%nat.
Proof.
  induction cells as [|t' cells IH]; [by intros ?%elem_of_nil|].
  intros [->|Hin]%elem_of_cons; cbn; [lia|]. specialize (IH Hin). lia.
Qed.

(** X15. The width of a column is the greatest cell length plus two,
    cut off at fifty: it lies between two and fifty and leaves two
    characters of room to every cell of at most forty-eight characters. *)
Theorem adjusted_width_bounds (cell_texts : list str) :
  adjusted_width cell_texts
  = Nat.min (max_list_with length cell_texts + 2) 50
  /\ (2 <= adjusted_width cell_texts <= 50)%nat
  /\ (forall t, t ∈ cell_texts -> (length t <= 48)%nat ->
        (length t + 2 <= adjusted_width cell_texts)%nat).
Proof.
  unfold adjusted_width. rewrite foldl_max, Nat.max_0_l.
  split; [done|]. split; [lia|].
  intros t Hin Ht. apply max_list_with_ge in Hin. lia.
Qed.

Lemma export_titles_NoDup : NoDup (u "序号" :: export_columns.*1).
Proof. apply (bool_decide_unpack _). by vm_compute. Qed.

Lemma row_get_columns (e : gmap string str) (cols : list (str * string)) :
  NoDup (cols.*1) ->
  forall title field, (title, field) ∈ cols ->
    row_get title
      (map (fun col => (col.1, CStr (default [] (e !! col.2)))) cols)
    = Some (CStr (default [] (e !! field))).
Proof.
  induction cols as [|[t f] cols IH]; intros Hnd title field Hin.
  - by apply elem_of_nil in Hin.
  - cbn [fmap list_fmap fst] in Hnd. apply NoDup_cons in Hnd as [Ht Hnd].
    cbn [map row_get fst snd].
    apply elem_of_cons in Hin as [[= -> ->]|Hin].
    + by rewrite bool_decide_eq_true_2.
    + rewrite bool_decide_eq_false_2; [by apply IH|].
      intros ->. apply Ht. by apply (list_elem_of_fmap_2 fst) in Hin.
Qed.

Lemma export_row_get (i : nat) (e : gmap string str) title field :
  (title, field) ∈ export_columns ->
  row_get title (export_row i e) = Some (CStr (default [] (e !! field))).
Proof.
  intros Hin. pose proof export_titles_NoDup as Hnd.
  apply NoDup_cons in Hnd as [Hno Hnd]. unfold export_row.
  cbn [row_get]. rewrite bool_decide_eq_false_2.
  - by apply row_get_columns.
  - intros E. apply Hno. rewrite E.
    by apply (list_elem_of_fmap_2 fst) in Hin.
Qed.

(** X16. The row of the record at position [i] carries the number
    [i + 1] and, under each column title, the text the record has under the
    column's key, or the empty text when it has none. *)
Theorem export_row_cells (entries : list (gmap string str)) (i : nat)
    (e : gmap string str) :
  entries !! i = Some e ->
  exists row,
    export_rows entries !! i = Some row
    /\ row_get (u "序号") row = Some (CInt (S i))
    /\ forall title field, (title, field) ∈ export_columns ->
         row_get title row = Some (CStr (default [] (e !! field))).
Proof.
  intros He. exists (export_row (S i) e). split.
  { unfold export_rows. by rewrite list_lookup_imap, He. }
  split; [by unfold export_row; cbn [row_get]; rewrite bool_decide_eq_true_2|].
  intros title field Hin. by apply export_row_get.
Qed.

Lemma columns_cover_catalog (f : string) :
  f ∈ "type" :: "key" :: field_patterns.*1 -> f ∈ export_columns.*2.
Proof.
  intros Hin. cbn in Hin.
  repeat (apply elem_of_cons in Hin as [->|Hin];
          [apply (bool_decide_unpack _); by vm_compute|]).
  by apply elem_of_nil in Hin.
Qed.

Lemma structured_keys (rec : RawRecord) (f : string) (v : str) :
  structured rec !! f = Some v ->
  f ∈ "type" :: "key" :: field_patterns.*1.
Proof.
  unfold structured, extract_fields.
  intros [H|H]%extract_over_keys.
  - destruct (decide (f = "key")) as [->|Hk];
      [apply list_elem_of_further, list_elem_of_here|].
    destruct (decide (f = "type")) as [->|Ht]; [apply list_elem_of_here|].
    rewrite lookup_insert_ne in H by done.
    rewrite lookup_insert_ne in H by done.
    by rewrite lookup_empty in H.
  - by apply list_elem_of_further, list_elem_of_further.
Qed.

(** X17. Nothing that the parser stored is lost on the way to the
    table: every entry of a record mapping has a column, and the row holds
    the entry's text under that column's title. *)
Theorem export_keeps_every_field (rec : RawRecord) (i : nat) (f : string)
    (v : str) :
  structured rec !! f = Some v ->
  exists title,
    (title, f) ∈ export_columns
    /\ row_get title (export_row i (structured rec)) = Some (CStr v).
Proof.
  intros Hv.
  pose proof (columns_cover_catalog f (structured_keys rec f v Hv)) as Hf.
  apply list_elem_of_fmap in Hf as ([title f'] & E & Hin).
  change (f = f') in E. subst f'. exists title. split; [exact Hin|].
  rewrite (export_row_get i _ title f Hin). by rewrite Hv.
Qed.

(** ** An escape in text without other backslashes *)

Lemma residues_sound r :
  forall (k : cont) cs prev e post res,
    rmatch r k cs prev (e ++ post) = Some res ->
    None ∈ residues r e
    \/ exists e' cs' p',
         Some e' ∈ residues r e /\ k cs' p' (e' ++ post) = Some res.
Proof.
  induction r as [|x|f|a IHa b IHb|a IHa|a IHa|n a IHa|];
    intros k cs prev e post res; cbn [residues].
  - intros H. right. exists e, cs, prev. split; [apply list_elem_of_here|done].
  - destruct e as [|y e]; [intros _; left; apply list_elem_of_here|].
    cbn [app]. rewrite rmatch_Chr. destruct (y =? x); [|done].
    intros H. right. exists e, cs, (Some y).
    split; [apply list_elem_of_here|done].
  - destruct e as [|y e]; [intros _; left; apply list_elem_of_here|].
    cbn [app]. rewrite rmatch_Cls. destruct (f y); [|done].
    intros H. right. exists e, cs, (Some y).
    split; [apply list_elem_of_here|done].
  - rewrite rmatch_Seq. intros [Hn|(e1 & cs1 & p1 & Hin & H)]%IHa.
    + left. apply list_elem_of_bind. exists None.
      split; [apply list_elem_of_here|done].
    + apply IHb in H as [Hn|(e2 & cs2 & p2 & Hin2 & H)].
      * left. apply list_elem_of_bind. by exists (Some e1).
      * right. exists e2, cs2, p2. split; [|done].
        apply list_elem_of_bind. by exists (Some e1).
  - intros _. left. apply list_elem_of_here.
  - cbn [rmatch]. intros [H|[_ H]]%orelse_Some.
    + apply IHa in H as [Hn|(e1 & cs1 & p1 & Hin & H)].
      * left. apply elem_of_app. by left.
      * right. exists e1, cs1, p1. split; [|done]. apply elem_of_app. by left.
    + right. exists e, cs, prev. split; [|done].
      apply elem_of_app. right. apply list_elem_of_here.
  - rewrite rmatch_Group. intros [Hn|(e1 & cs1 & p1 & Hin & H)]%IHa.
    + by left.
    + right. by eexists e1, _, p1.
  - cbn [rmatch]. destruct (xorb _ _); [|done].
    intros H. right. exists e, cs, prev. split; [apply list_elem_of_here|done].
Qed.

Lemma misses_match_at r e prev post :
  misses r e = true -> match_at r prev (e ++ post) = None.
Proof.
  unfold misses, match_at. intros Hm.
  destruct (rmatch r accept [] prev (e ++ post)) as [res|] eqn:E; [|done].
  apply residues_sound in E as [Hn|(e' & cs' & p' & Hin & _)];
    destruct (residues r e); try done.
  - by apply elem_of_nil in Hn.
  - by apply elem_of_nil in Hin.
Qed.

(** A pattern that starts with a backslash leaves text without backslash
    as it is and goes on after it. *)
Lemma sub_go_pre r tpl pre :
  first_char backslash r = true ->
  backslash ∉ pre ->
  forall prev s,
    sub_go r tpl 0 prev (pre ++ s)
    = pre ++ sub_go r tpl 0 (last_prev prev pre) s.
Proof.
  intros Hr. induction pre as [|c pre IH]; intros Hpre prev s; [done|].
  apply not_elem_of_cons in Hpre as [Hc Hpre].
  cbn [app sub_go]. rewrite (match_at_first_char backslash); [|done|].
  - rewrite IH by done. by rewrite last_prev_cons.
  - cbn. by intros [= ->].
Qed.

Lemma sub_go_miss r tpl prev esc' post :
  first_char backslash r = true ->
  backslash ∉ esc' -> backslash ∉ post ->
  match_at r prev (backslash :: esc' ++ post) = None ->
  sub_go r tpl 0 prev (backslash :: esc' ++ post) = backslash :: esc' ++ post.
Proof.
  intros Hr He Hp Hm. cbn [sub_go]. rewrite Hm. f_equal.
  apply (sub_go_absent backslash); [done|].
  apply not_elem_of_app. by split.
Qed.

Lemma sub_go_hit r ch prev esc' post cs :
  first_char backslash r = true ->
  backslash ∉ post ->
  match_at r prev (backslash :: esc' ++ post) = Some (cs, post) ->
  sub_go r [RText ch] 0 prev (backslash :: esc' ++ post) = ch ++ post.
Proof.
  intros Hr Hp Hm. cbn [sub_go]. rewrite Hm.
  replace (length (backslash :: esc' ++ post) - length post)%nat
    with (S (length esc')) by (cbn [length]; rewrite length_app; lia).
  cbn [expand map expand_tok concat]. rewrite app_nil_r. f_equal.
  rewrite sub_go_skip. by apply (sub_go_absent backslash).
Qed.

Lemma escape_shape_spec row :
  escape_shape row = true ->
  exists esc', row.1 = backslash :: esc' /\ (backslash ∉ esc')
               /\ forallb harmless row.2 = true.
Proof.
  unfold escape_shape. intros [H1 H2]%andb_true_iff.
  destruct (row.1) as [|c e]; [done|].
  apply andb_true_iff in H1 as [->%N.eqb_eq H1].
  exists e. split; [done|]. split; [|done].
  induction e as [|x e IH]; [apply not_elem_of_nil|].
  cbn in H1. apply andb_true_iff in H1 as [Hx H1].
  apply not_elem_of_cons. split; [|by apply IH].
  intros <-. by rewrite N.eqb_refl in Hx.
Qed.

Lemma harmless_notin (c : char) (v : str) :
  harmless c = false -> forallb harmless v = true -> c ∉ v.
Proof.
  intros Hc. induction v as [|x v IH]; [intros _; apply not_elem_of_nil|].
  cbn. intros [Hx Hv]%andb_true_iff.
  apply not_elem_of_cons. split; [|by apply IH]. intros <-. congruence.
Qed.

(** The table turns the escape into the letter of its first live row, and
    leaves the text around it as it is. *)
Lemma apply_mappings_live tbl post pre row :
  forallb (fun q => first_char backslash q.1) tbl = true ->
  escape_shape row = true ->
  resolves_to tbl post row ->
  backslash ∉ pre -> backslash ∉ post ->
  apply_mappings tbl (pre ++ row.1 ++ post) = pre ++ row.2 ++ post.
Proof.
  intros Htbl (esc' & Hesc & He & Hch)%escape_shape_spec Hres Hpre Hpost.
  unfold resolves_to in Hres. rewrite Hesc in *.
  pose proof (harmless_notin backslash _ eq_refl Hch) as Hbs.
  unfold apply_mappings.
  induction tbl as [|[q c] tbl IH]; [done|].
  cbn [forallb fst] in Htbl. apply andb_true_iff in Htbl as [Hq Htbl].
  cbn [first_live] in Hres. cbn [foldl]. unfold re_sub at 2.
  rewrite sub_go_pre by done. cbn [app].
  destruct (misses q (backslash :: esc')) eqn:Hm.
  - rewrite sub_go_miss; [by apply IH|done..|].
    by apply (misses_match_at q (backslash :: esc')).
  - destruct Hres as [-> Hhit]. cbn [app] in Hhit.
    rewrite (sub_go_hit q _ _ esc' post []) by done.
    apply (apply_mappings_absent backslash); [done|].
    apply not_elem_of_app. split; [done|]. apply not_elem_of_app. by split.
Qed.

(** A table of which every row misses the escape changes nothing. *)
Lemma apply_mappings_dead tbl post pre row :
  forallb (fun q => first_char backslash q.1) tbl = true ->
  escape_shape row = true ->
  first_live tbl row.1 = None ->
  backslash ∉ pre -> backslash ∉ post ->
  apply_mappings tbl (pre ++ row.1 ++ post) = pre ++ row.1 ++ post.
Proof.
  intros Htbl (esc' & Hesc & He & Hch)%escape_shape_spec Hres Hpre Hpost.
  rewrite Hesc in *. unfold apply_mappings.
  induction tbl as [|[q c] tbl IH]; [done|].
  cbn [forallb fst] in Htbl. apply andb_true_iff in Htbl as [Hq Htbl].
  cbn [first_live] in Hres. cbn [foldl]. unfold re_sub at 2.
  rewrite sub_go_pre by done. cbn [app].
  destruct (misses q (backslash :: esc')) eqn:Hm; [|done].
  rewrite sub_go_miss; [by apply IH|done..|].
  by apply (misses_match_at q (backslash :: esc')).
Qed.

(** The pipeline only sees a value through the two tables. *)
Lemma pipeline_tables v w :
  apply_mappings simple_mappings (apply_mappings latex_mappings v)
  = apply_mappings simple_mappings (apply_mappings latex_mappings w) ->
  pipeline v = pipeline w.
Proof. unfold pipeline. cbv zeta. by intros ->. Qed.

Lemma plain_tables v :
  backslash ∉ v ->
  apply_mappings simple_mappings (apply_mappings latex_mappings v) = v.
Proof.
  intros Hv.
  rewrite (apply_mappings_absent backslash _ _ latex_mappings_backslash Hv).
  by rewrite (apply_mappings_absent backslash _ _ simple_mappings_backslash Hv).
Qed.

Lemma letter_text_plain pre post row :
  escape_shape row = true ->
  backslash ∉ pre -> backslash ∉ post -> backslash ∉ pre ++ row.2 ++ post.
Proof.
  intros (esc' & _ & _ & Hch)%escape_shape_spec Hpre Hpost.
  apply not_elem_of_app. split; [done|]. apply not_elem_of_app.
  split; [|done]. by apply harmless_notin.
Qed.

(** An escape that the first table resolves counts as its letter. *)
Lemma escape_like_letter pre post row :
  escape_shape row = true ->
  resolves_to latex_mappings post row ->
  backslash ∉ pre -> backslash ∉ post ->
  pipeline (pre ++ row.1 ++ post) = pipeline (pre ++ row.2 ++ post).
Proof.
  intros Hshape Hres Hpre Hpost. apply pipeline_tables.
  rewrite (apply_mappings_live latex_mappings post pre row)
    by auto using latex_mappings_backslash.
  pose proof (letter_text_plain pre post row Hshape Hpre Hpost) as Hplain.
  by rewrite (apply_mappings_absent backslash _ _ latex_mappings_backslash
                Hplain).
Qed.

(** An escape that the first table leaves alone and the second resolves
    counts as its letter. *)
Lemma shorthand_like_letter pre post row :
  escape_shape row = true ->
  first_live latex_mappings row.1 = None ->
  resolves_to simple_mappings post row ->
  backslash ∉ pre -> backslash ∉ post ->
  pipeline (pre ++ row.1 ++ post) = pipeline (pre ++ row.2 ++ post).
Proof.
  intros Hshape Hdead Hres Hpre Hpost. apply pipeline_tables.
  rewrite (apply_mappings_dead latex_mappings post pre row)
    by auto using latex_mappings_backslash.
  rewrite (apply_mappings_live simple_mappings post pre row)
    by auto using simple_mappings_backslash.
  symmetry. by apply plain_tables, letter_text_plain.
Qed.

(** Harmless text only has its whitespace collapsed and trimmed. *)
Lemma pipeline_harmless v :
  forallb harmless v = true ->
  pipeline v = strip (re_sub space_run [RText [space]] v).
Proof.
  intros Hv.
  pose proof (harmless_notin backslash v eq_refl Hv) as Hbs.
  pose proof (harmless_notin lbrace v eq_refl Hv) as Hlb.
  pose proof (harmless_notin backtick v eq_refl Hv) as Hbt.
  pose proof (harmless_notin hyphen v eq_refl Hv) as Hhy.
  pose proof (harmless_notin squote v eq_refl Hv) as Hsq.
  unfold pipeline. cbv zeta.
  rewrite (apply_mappings_absent backslash _ _ latex_mappings_backslash Hbs).
  rewrite (apply_mappings_absent backslash _ _ simple_mappings_backslash Hbs).
  rewrite (re_sub_absent lbrace brace_pair) by done.
  rewrite (replace_absent (u "--")) by (by apply contains_absent_char).
  rewrite (replace_absent (u "---")) by (by apply contains_absent_char).
  rewrite (replace_absent (u "``")) by (by apply contains_absent_char).
  rewrite (replace_absent [squote; squote]) by (by apply contains_absent_char).
  rewrite (replace_absent (u "`")) by (by apply contains_absent_char).
  rewrite (re_sub_absent backslash command_word) by done.
  by rewrite (re_sub_absent backslash escaped_char) by done.
Qed.

Lemma harmless_app3 pre ch post :
  forallb harmless pre = true -> forallb harmless ch = true ->
  forallb harmless post = true ->
  forallb harmless (pre ++ ch ++ post) = true.
Proof. intros H1 H2 H3. by rewrite !forallb_app, H1, H2, H3. Qed.

(** Every brace-wrapped escape, with or without the quote of the acute
    accent, is resolved by the first table. *)
Lemma braced_rows_resolve post :
  Forall (fun row => resolves_to latex_mappings post row)
    (braced_accents ++ bare_braced).
Proof.
  unfold braced_accents, bare_braced. cbn [app].
  repeat (constructor;
          [unfold resolves_to; vm_compute; split; [reflexivity|]; intros prev; reflexivity|]).
  constructor.
Qed.

(** A shorthand row matches its escape when a word character ends the
    escape and none follows it. *)
Lemma shorthand_hit tbl (w c post : str) :
  first_live tbl w = Some (Seq (Lit w) WordB, c) ->
  at_word (last w) = true ->
  at_word (head post) = false ->
  resolves_to tbl post (w, c).
Proof.
  intros Hlive Hw Hpost. unfold resolves_to. cbn [fst snd]. rewrite Hlive.
  split; [done|]. intros prev. unfold match_at.
  rewrite rmatch_Seq, rmatch_Lit. cbn [rmatch]. unfold last_prev.
  destruct (last w) as [x|]; [|done]. by rewrite Hw, Hpost.
Qed.

(** Every shorthand escape that ends at a word boundary is left alone by
    the first table and resolved by the second. *)
Lemma shorthand_rows_resolve post :
  at_word (head post) = false ->
  Forall (fun row => first_live latex_mappings row.1 = None
                     /\ resolves_to simple_mappings post row)
    shorthand_accents.
Proof.
  intros Hpost. unfold shorthand_accents.
  repeat (constructor;
          [split;
           [vm_compute; reflexivity
           |apply shorthand_hit;
            [vm_compute; reflexivity|vm_compute; reflexivity|exact Hpost]]|]).
  constructor.
Qed.

Lemma rows_shape :
  forallb escape_shape (braced_accents ++ bare_braced ++ shorthand_accents)
  = true.
Proof. vm_compute; reflexivity. Qed.

Lemma row_shape row :
  row ∈ braced_accents ++ bare_braced ++ shorthand_accents ->
  escape_shape row = true.
Proof.
  intros Hin. pose proof rows_shape as H.
  rewrite forallb_forall in H. apply H. by apply list_elem_of_In.
Qed.

Lemma braced_row_like_letter pre post esc ch :
  backslash ∉ pre -> backslash ∉ post ->
  (esc, ch) ∈ braced_accents ++ bare_braced ->
  clean_field_value (Some (pre ++ esc ++ post))
  = clean_field_value (Some (pre ++ ch ++ post)).
Proof.
  intros Hpre Hpost Hin. rewrite !clean_field_value_pipeline.
  apply (escape_like_letter pre post (esc, ch)); [| |done..].
  - apply row_shape. rewrite app_assoc. apply elem_of_app. by left.
  - by apply (proj1 (Forall_forall _ _) (braced_rows_resolve post)).
Qed.

Lemma shorthand_row_like_letter pre post esc ch :
  backslash ∉ pre -> backslash ∉ post ->
  at_word (head post) = false ->
  (esc, ch) ∈ shorthand_accents ->
  clean_field_value (Some (pre ++ esc ++ post))
  = clean_field_value (Some (pre ++ ch ++ post)).
Proof.
  intros Hpre Hpost Hb Hin. rewrite !clean_field_value_pipeline.
  destruct (proj1 (Forall_forall _ _) (shorthand_rows_resolve post Hb)
              _ Hin) as [Hdead Hres].
  apply (shorthand_like_letter pre post (esc, ch)); [|done..].
  apply row_shape. apply elem_of_app. right. apply elem_of_app. by right.
Qed.

Lemma letter_text_harmless pre post row :
  row ∈ braced_accents ++ bare_braced ++ shorthand_accents ->
  forallb harmless pre = true -> forallb harmless post = true ->
  clean_field_value (Some (pre ++ row.2 ++ post))
  = strip (re_sub space_run [RText [space]] (pre ++ row.2 ++ post)).
Proof.
  intros (esc' & _ & _ & Hch)%row_shape%escape_shape_spec Hpre Hpost.
  rewrite clean_field_value_pipeline.
  by apply pipeline_harmless, harmless_app3.
Qed.

(** C6.  Every accent escape, in the brace-wrapped form and in the
    brace-free shorthand form, is resolved to its precomposed letter.  In a
    value without other backslashes a brace-wrapped escape counts exactly as
    its letter, and so does a shorthand escape that no word character
    follows; in a harmless context the cleaned value is the context with the
    letter in place of the escape, whitespace collapsed and trimmed; alone,
    each escape yields its letter.  The escapes are those of the accent rows
    of the two tables, row by row.  The two values of the claim, and the
    brace-wrapped spelling of the first, yield [école] and [café]. *)
Theorem accent_escapes_resolved :
  (forall pre post esc ch,
      backslash ∉ pre -> backslash ∉ post ->
      (esc, ch) ∈ braced_accents ->
      clean_field_value (Some (pre ++ esc ++ post))
      = clean_field_value (Some (pre ++ ch ++ post)))
  /\ (forall pre post esc ch,
        backslash ∉ pre -> backslash ∉ post ->
        at_word (head post) = false ->
        (esc, ch) ∈ shorthand_accents ->
        clean_field_value (Some (pre ++ esc ++ post))
        = clean_field_value (Some (pre ++ ch ++ post)))
  /\ (forall pre post esc ch,
        forallb harmless pre = true -> forallb harmless post = true ->
        (esc, ch) ∈ braced_accents
        \/ ((esc, ch) ∈ shorthand_accents /\ at_word (head post) = false) ->
        clean_field_value (Some (pre ++ esc ++ post))
        = strip (re_sub space_run [RText [space]] (pre ++ ch ++ post)))
  /\ Forall (fun row => clean_field_value (Some row.1) = row.2)
       (braced_accents ++ shorthand_accents)
  /\ braced_accents.*2 = take 52 (latex_mappings.*2)
  /\ shorthand_accents.*2 = simple_mappings.*2
  /\ clean_field_value (Some (u "{\'e}cole")) = u "école"
  /\ clean_field_value (Some (u "caf\'e")) = u "café"
  /\ clean_field_value (Some (u "\'{e}cole")) = u "école".
Proof.
  split; [|split; [|split; [|split; [|split; [|split; [|split; [|split]]]]]]].
  - intros pre post esc ch Hpre Hpost Hin.
    apply braced_row_like_letter; [done..|]. apply elem_of_app. by left.
  - apply shorthand_row_like_letter.
  - intros pre post esc ch Hpre Hpost Hin.
    pose proof (harmless_notin backslash pre eq_refl Hpre) as Hbs1.
    pose proof (harmless_notin backslash post eq_refl Hpost) as Hbs2.
    destruct Hin as [Hin|[Hin Hb]].
    + rewrite (braced_row_like_letter pre post esc ch Hbs1 Hbs2)
        by (apply elem_of_app; by left).
      apply (letter_text_harmless pre post (esc, ch)); [|done..].
      apply elem_of_app. by left.
    + rewrite (shorthand_row_like_letter pre post esc ch Hbs1 Hbs2 Hb Hin).
      apply (letter_text_harmless pre post (esc, ch)); [|done..].
      apply elem_of_app. right. apply elem_of_app. by right.
  - unfold braced_accents, shorthand_accents. cbn [app].
    repeat (constructor; [vm_compute; reflexivity|]). constructor.
  - vm_compute; reflexivity.
  - vm_compute; reflexivity.
  - vm_compute; reflexivity.
  - vm_compute; reflexivity.
  - vm_compute; reflexivity.
Qed.

(** C8.  A backslash before a braced letter of the acute rows, with no
    accent character at all, is rewritten to the acute-accented letter,
    the same letter as for the escape with the quote: the quote of the
    acute patterns is optional.  This holds for each of the fourteen
    letters of the acute rows of the table, wherever the text around has no
    other backslash; alone, each spelling yields its letter, and [\{e}]
    yields [é]. *)
Theorem bare_braced_letter_accented :
  (forall pre post esc ch,
      backslash ∉ pre -> backslash ∉ post ->
      (esc, ch) ∈ bare_braced ->
      (squote ∉ esc)
      /\ (backslash :: squote :: tail esc, ch) ∈ braced_accents
      /\ clean_field_value (Some (pre ++ esc ++ post))
         = clean_field_value (Some (pre ++ ch ++ post)))
  /\ (forall pre post esc ch,
        forallb harmless pre = true -> forallb harmless post = true ->
        (esc, ch) ∈ bare_braced ->
        clean_field_value (Some (pre ++ esc ++ post))
        = strip (re_sub space_run [RText [space]] (pre ++ ch ++ post)))
  /\ Forall (fun row => clean_field_value (Some row.1) = row.2) bare_braced
  /\ bare_braced.*2 = take 14 (drop 6 (latex_mappings.*2))
  /\ clean_field_value (Some (u "\{e}")) = u "é".
Proof.
  split; [|split; [|split; [|split]]].
  - intros pre post esc ch Hpre Hpost Hin. split; [|split].
    + revert Hin. unfold bare_braced. intros Hin.
      repeat (apply elem_of_cons in Hin as [[= -> ->]|Hin];
              [by apply (bool_decide_unpack _)|]).
      by apply elem_of_nil in Hin.
    + revert Hin. unfold bare_braced. intros Hin.
      repeat (apply elem_of_cons in Hin as [[= -> ->]|Hin];
              [by apply (bool_decide_unpack _)|]).
      by apply elem_of_nil in Hin.
    + apply braced_row_like_letter; [done..|]. apply elem_of_app. by right.
  - intros pre post esc ch Hpre Hpost Hin.
    pose proof (harmless_notin backslash pre eq_refl Hpre) as Hbs1.
    pose proof (harmless_notin backslash post eq_refl Hpost) as Hbs2.
    rewrite (braced_row_like_letter pre post esc ch Hbs1 Hbs2)
      by (apply elem_of_app; by right).
    apply (letter_text_harmless pre post (esc, ch)); [|done..].
    apply elem_of_app. right. apply elem_of_app. by left.
  - unfold bare_braced.
    repeat (constructor; [vm_compute; reflexivity|]). constructor.
  - vm_compute; reflexivity.
  - vm_compute; reflexivity.
Qed.

(** ** Empty values *)

(** Two runs of a class that end before the same character outside the
    class are the same run. *)
Lemma run_unique (f : char -> bool) (c : char) (run rest ws tl : str) :
  run ++ c :: rest = ws ++ c :: tl ->
  forallb f run = true -> forallb f ws = true -> f c = false ->
  run = ws /\ rest = tl.
Proof.
  intros E Hr Hw Hc. revert ws E Hw.
  induction run as [|r run IH]; intros [|w ws] E Hw; cbn in *.
  - by injection E as <-.
  - injection E as <- E. apply andb_true_iff in Hw as [Hw _]. congruence.
  - injection E as -> E. apply andb_true_iff in Hr as [Hr _]. congruence.
  - injection E as <- E. apply andb_true_iff in Hr as [_ Hr].
    apply andb_true_iff in Hw as [_ Hw].
    by destruct (IH Hr ws E Hw) as [-> ->].
Qed.

(** When what follows a star over a class can only go on at a character
    outside the class, the star has read the whole run before it. *)
Lemma star_cls_exact f (c : char) (k : cont) cs prev ws tl res :
  forallb f ws = true -> f c = false ->
  (forall p s, k cs p s = Some res -> head s = Some c) ->
  rmatch (Star (Cls f)) k cs prev (ws ++ c :: tl) = Some res ->
  k cs (last_prev prev ws) (c :: tl) = Some res.
Proof.
  intros Hw Hc Hk. rewrite rmatch_Star.
  intros (run & rest & E & Hf & H)%star_loop_cls_sound.
  pose proof (Hk _ _ H) as Hh. destruct rest as [|x rest]; [done|].
  injection Hh as ->. symmetry in E.
  by destruct (run_unique f c run rest ws tl E Hf Hw Hc) as [-> ->].
Qed.

(** At a field with an empty value a simple scalar pattern fails. *)
Lemma match_at_scalar_empty name prev ws1 ws2 post :
  forallb is_space ws1 = true ->
  forallb is_space ws2 = true ->
  match_at (scalar name) prev (empty_field name ws1 ws2 ++ post) = None.
Proof.
  intros Hw1 Hw2. unfold match_at, scalar, anchor, empty_field.
  rewrite <- !app_assoc. cbn [app].
  rewrite !rmatch_Seq, rmatch_Lit, rmatch_Seq.
  match goal with |- ?t = None => destruct t as [res|] eqn:E; [|done] end.
  exfalso.
  apply (star_cls_exact is_space 61) in E; [|done|done|].
  2:{ intros p s. rewrite rmatch_Seq, rmatch_Chr. destruct s as [|x s]; [done|].
      by destruct (N.eqb_spec x 61) as [->|]. }
  rewrite rmatch_Seq, rmatch_Chr_same, rmatch_Seq in E.
  apply (star_cls_exact is_space lbrace) in E; [|done|done|].
  2:{ intros p s. rewrite rmatch_Chr. destruct s as [|x s]; [done|].
      by destruct (N.eqb_spec x lbrace) as [->|]. }
  rewrite rmatch_Chr_same in E. revert E.
  unfold scalar_value, Plus.
  by rewrite rmatch_Seq, rmatch_Group, rmatch_Seq, rmatch_Cls.
Qed.

Lemma search_go_none_pos r s :
  forall pos pos' prev,
    search_go r pos prev s = None -> search_go r pos' prev s = None.
Proof.
  induction s as [|c s IH]; intros pos pos' prev; cbn [search_go];
    destruct (match_at r prev _) as [[cs rest]|]; try done.
  apply IH.
Qed.

Lemma re_search_scalar_empty name pre ws1 ws2 post :
  forallb is_space ws1 = true ->
  forallb is_space ws2 = true ->
  let tail := empty_field name ws1 ws2 ++ post in
  no_match_within (scalar name) None pre tail = true ->
  nowhere_after_first (scalar name) tail = true ->
  re_search (scalar name) (pre ++ tail) = None.
Proof.
  intros Hw1 Hw2 tail Hpre Hpost. unfold re_search.
  rewrite search_go_skip by done.
  pose proof (match_at_scalar_empty name (last_prev None pre) ws1 ws2 post
                Hw1 Hw2) as Hm.
  fold tail in Hm. destruct tail as [|c tl]; cbn [search_go]; rewrite Hm.
  - done.
  - cbn [nowhere_after_first] in Hpost.
    destruct (search_go (scalar name) 0 (Some c) tl) eqn:E; [done|].
    by apply (search_go_none_pos _ _ 0%nat).
Qed.

(** C9, as amended.  Take a record whose text has a catalog field with an
    empty value, [name = {}], and no match of the field's pattern that
    starts before it.  For a brace-balanced field the mapping holds the
    empty string under the name.  For a simple scalar field the pattern
    fails at the empty value, and when it also matches nowhere after it the
    mapping has no entry under the name. *)
Theorem empty_value_handling (content : str) (i : nat) (rec : RawRecord)
    (fam : family) (name : string) (pre ws1 ws2 post : str) :
  segment content !! i = Some rec ->
  (name, family_pattern fam name) ∈ field_patterns ->
  forallb is_space ws1 = true ->
  forallb is_space ws2 = true ->
  let tail := empty_field name ws1 ws2 ++ post in
  entry_content rec = pre ++ tail ->
  no_match_within (family_pattern fam name) None pre tail = true ->
  exists e, parse_bibtex_file content !! i = Some e
            /\ match fam with
               | Balanced => e !! name = Some []
               | Scalar =>
                   match_at (scalar name) (last_prev None pre) tail = None
                   /\ (nowhere_after_first (scalar name) tail = true ->
                       e !! name = None)
               end.
Proof.
  intros Hrec Hin Hw1 Hw2 tail Hbody Hpre. subst tail.
  exists (structured rec). split.
  - unfold parse_bibtex_file. by rewrite list_lookup_fmap, Hrec.
  - unfold structured. rewrite (extract_fields_lookup _ _ _ _ Hin), Hbody.
    destruct fam; cbn [family_pattern] in *.
    + split; [by apply match_at_scalar_empty|]. intros Hpost.
      rewrite (re_search_scalar_empty name pre ws1 ws2 post) by done.
      destruct (catalog_names_fresh _ _ Hin) as [Ht Hk].
      by rewrite !lookup_insert_ne, lookup_empty.
    + unfold empty_field in *. rewrite <- !app_assoc in *.
      destruct (re_search_balanced name pre ws1 ws2 [] [] post)
        as (mt & Hmt & _ & Hv); [done..|].
      cbn [one_level concat map app] in Hmt, Hv. cbn [app].
      by rewrite Hmt, Hv.
Qed.

End Program.

(** ** The statements on concrete texts *)

Ltac in_catalog :=
  unfold field_patterns;
  repeat first [apply list_elem_of_here | apply list_elem_of_further].

Lemma no_markers_witness :
  segment latin_alnum latin_lower (u "plain text, no record here") = []
  /\ parse_bibtex_file latin_alnum latin_lower (u "plain text, no record here")
     = [].
Proof.
  apply (no_markers_no_records latin_alnum latin_lower).
  vm_compute; reflexivity.
Defined.

Lemma absent_field_witness :
  exists e,
    parse_bibtex_file latin_alnum latin_lower (u "@article{k1, title = {T}}")
      !! 0%nat = Some e
    /\ e !! "doi" = None.
Proof.
  apply (absent_field_is_omitted latin_alnum latin_lower
           (u "@article{k1, title = {T}}") 0
           (MkRaw (u "article") (u "k1") (u "@article{k1, title = {T}}"))
           "doi" (scalar "doi")).
  - vm_compute; reflexivity.
  - in_catalog.
  - left. vm_compute; reflexivity.
Defined.

Lemma nested_braces_witness :
  exists e,
    parse_bibtex_file latin_alnum latin_lower
      (u "@book{k, title = {A {Study} of X}}") !! 0%nat = Some e
    /\ e !! "title" = Some (u "A Study of X").
Proof.
  apply (nested_braces_captured latin_alnum latin_lower
           (u "@book{k, title = {A {Study} of X}}") 0
           (MkRaw (u "book") (u "k") (u "@book{k, title = {A {Study} of X}}"))
           "title" (u "@book{k, ") (u " ") (u " ") (u "A ")
           [(u "Study", u " of X")] (u "}")).
  - vm_compute; reflexivity.
  - in_catalog.
  - reflexivity.
  - reflexivity.
  - reflexivity.
  - reflexivity.
  - reflexivity.
  - vm_compute; reflexivity.
Defined.

Lemma clean_twice_witness :
  clean_field_value latin_alnum
    (Some (clean_field_value latin_alnum (Some (u "  Caf\'e   {Noir} \LaTeX "))))
  = clean_field_value latin_alnum (Some (u "  Caf\'e   {Noir} \LaTeX ")).
Proof.
  apply (clean_twice_on_settled_output latin_alnum
           (u "  Caf\'e   {Noir} \LaTeX ")); vm_compute; reflexivity.
Defined.

(** C3, as stated, fails.  One pass removes one level of braces and a
    second pass removes another; and a cleaned value free of backslashes and
    braces can still hold two hyphens, or two straight quotes, that the next
    pass rewrites. *)
Lemma idempotence_counterexample :
  (forall uni_alnum : char -> bool,
      let w := clean_field_value uni_alnum (Some (u "{{a}}")) in
      clean_field_value uni_alnum (Some w) <> w)
  /\ (forall uni_alnum : char -> bool,
        let w := clean_field_value uni_alnum (Some (u "-\-")) in
        contains [backslash] w = false /\ contains [lbrace] w = false
        /\ contains [rbrace] w = false
        /\ clean_field_value uni_alnum (Some w) <> w)
  /\ (forall uni_alnum : char -> bool,
        let w := clean_field_value uni_alnum (Some (u "'\'")) in
        contains [backslash] w = false /\ contains [lbrace] w = false
        /\ contains [rbrace] w = false
        /\ clean_field_value uni_alnum (Some w) <> w).
Proof.
  split; [|split]; intros uni_alnum w.
  - assert (w = u "{a}") as -> by (vm_compute; reflexivity).
    assert (clean_field_value uni_alnum (Some (u "{a}")) = u "a") as ->
      by (vm_compute; reflexivity).
    vm_compute. discriminate.
  - assert (w = u "--") as -> by (vm_compute; reflexivity).
    assert (clean_field_value uni_alnum (Some (u "--")) = u "–") as ->
      by (vm_compute; reflexivity).
    do 3 (split; [reflexivity|]). vm_compute. discriminate.
  - assert (w = [squote; squote]) as -> by (vm_compute; reflexivity).
    assert (clean_field_value uni_alnum (Some [squote; squote]) = [dquote])
      as -> by (vm_compute; reflexivity).
    do 3 (split; [reflexivity|]). vm_compute. discriminate.
Qed.

(** C4, as stated, fails.  The pattern of a field is searched anywhere in
    the record's text and the leftmost match is taken; the pattern of
    [title] also matches inside [booktitle].  In the record below the body
    contains the nested-brace title of the claim, and the title of the
    mapping is the value of [booktitle]. *)
Lemma nested_title_counterexample :
  (forall (uni_alnum : char -> bool) (uni_lower : str -> str),
      (fun e : gmap string str => e !! "title")
        <$> parse_bibtex_file uni_alnum uni_lower
              (u "@inproceedings{k, booktitle = {Proc {X} Y}, title = {A {Study} of X}}")
      = [Some (u "Proc X Y")])
  /\ u "Proc X Y" <> u "A Study of X".
Proof.
  split.
  - intros uni_alnum uni_lower. vm_compute; reflexivity.
  - vm_compute. discriminate.
Qed.

Lemma empty_value_witness :
  (exists e,
      parse_bibtex_file latin_alnum latin_lower
        (u "@misc{k, year = {}, author = {}}") !! 0%nat = Some e
      /\ e !! "year" = None)
  /\ (exists e,
        parse_bibtex_file latin_alnum latin_lower
          (u "@misc{k, year = {}, author = {}}") !! 0%nat = Some e
        /\ e !! "author" = Some []).
Proof.
  split.
  - destruct (empty_value_handling latin_alnum latin_lower
                (u "@misc{k, year = {}, author = {}}") 0
                (MkRaw (u "misc") (u "k") (u "@misc{k, year = {}, author = {}}"))
                Scalar "year" (u "@misc{k, ") (u " ") (u " ")
                (u ", author = {}}"))
      as (e & He & _ & Hyear).
    + vm_compute; reflexivity.
    + in_catalog.
    + reflexivity.
    + reflexivity.
    + vm_compute; reflexivity.
    + vm_compute; reflexivity.
    + exists e. split; [exact He|]. apply Hyear. vm_compute; reflexivity.
  - apply (empty_value_handling latin_alnum latin_lower
             (u "@misc{k, year = {}, author = {}}") 0
             (MkRaw (u "misc") (u "k") (u "@misc{k, year = {}, author = {}}"))
             Balanced "author" (u "@misc{k, year = {}, ") (u " ") (u " ")
             (u "}")).
    + vm_compute; reflexivity.
    + in_catalog.
    + reflexivity.
    + reflexivity.
    + vm_compute; reflexivity.
    + vm_compute; reflexivity.
Defined.

(** C9, as stated, fails on both sides.  The pattern of [pages] also
    matches inside [numpages], and the pattern of [author] inside
    [coauthor]: a simple scalar field with an empty value can be present in
    the mapping, and a brace-balanced field with an empty value can be
    present with a value that is not empty. *)
Lemma empty_value_counterexample :
  (forall (uni_alnum : char -> bool) (uni_lower : str -> str),
      (fun e : gmap string str => e !! "pages")
        <$> parse_bibtex_file uni_alnum uni_lower
              (u "@misc{k, pages = {}, numpages = {12}}")
      = [Some (u "12")])
  /\ (forall (uni_alnum : char -> bool) (uni_lower : str -> str),
        (fun e : gmap string str => e !! "author")
          <$> parse_bibtex_file uni_alnum uni_lower
                (u "@misc{k, coauthor = {X}, author = {}}")
        = [Some (u "X")])
  /\ u "X" <> [].
Proof.
  split; [|split].
  - intros uni_alnum uni_lower. vm_compute; reflexivity.
  - intros uni_alnum uni_lower. vm_compute; reflexivity.
  - discriminate.
Qed.

Lemma accent_escapes_witness :
  clean_field_value latin_alnum (Some (u "Caf" ++ u "\'{e}" ++ u " Noir"))
  = strip (re_sub latin_alnum space_run [RText [space]]
             (u "Caf" ++ u "é" ++ u " Noir"))
  /\ clean_field_value latin_alnum (Some (u "caf" ++ u "\'e" ++ u " noir"))
     = strip (re_sub latin_alnum space_run [RText [space]]
                (u "caf" ++ u "é" ++ u " noir")).
Proof.
  destruct (accent_escapes_resolved latin_alnum) as (_ & _ & H & _).
  split; apply H.
  - reflexivity.
  - reflexivity.
  - left. apply (bool_decide_unpack _). vm_compute; reflexivity.
  - reflexivity.
  - reflexivity.
  - right. split; [|reflexivity].
    apply (bool_decide_unpack _). vm_compute; reflexivity.
Defined.

Lemma bare_braced_witness :
  clean_field_value latin_alnum (Some (u "caf" ++ u "\{e}" ++ u " noir"))
  = strip (re_sub latin_alnum space_run [RText [space]]
             (u "caf" ++ u "é" ++ u " noir")).
Proof.
  destruct (bare_braced_letter_accented latin_alnum) as (_ & H & _).
  apply H.
  - reflexivity.
  - reflexivity.
  - apply (bool_decide_unpack _). vm_compute; reflexivity.
Defined.

(** ** Further statements on concrete texts *)

Definition sample_text : str := u "@article{k1, title = {T}, year = {2020}}".

Definition sample_record : RawRecord :=
  MkRaw (u "article") (u "k1") sample_text.

Definition sample_book : str := u "@book{k, booktitle = {Proc}, title = {T}}".

Lemma marker_shape_witness :
  exists t k rest,
    drop 0 sample_text = [64] ++ t ++ [lbrace] ++ k ++ [44] ++ rest
    /\ group 1 [(2%nat, u "k1"); (1%nat, u "article")] = Some t
    /\ group 2 [(2%nat, u "k1"); (1%nat, u "article")] = Some k
    /\ t <> [] /\ forallb (is_word latin_alnum) t = true
    /\ k <> [] /\ forallb not_comma_space k = true.
Proof.
  apply (marker_shape latin_alnum sample_text
           (MkMatch 0 12 [(2%nat, u "k1"); (1%nat, u "article")])).
  vm_compute. apply list_elem_of_here.
Defined.

Lemma record_key_shape_witness :
  entry_key sample_record <> []
  /\ forallb not_comma_space (entry_key sample_record) = true
  /\ exists mt,
       re_finditer latin_alnum (entry_pattern latin_alnum) sample_text
         !! 0%nat = Some mt
       /\ group 2 (m_groups mt) = Some (entry_key sample_record).
Proof.
  apply (record_key_shape latin_alnum latin_lower sample_text 0).
  vm_compute; reflexivity.
Defined.

Lemma record_text_witness :
  exists tail, entry_content sample_record = 64 :: tail.
Proof.
  apply (record_text_starts_at_marker latin_alnum latin_lower sample_text 0
           sample_record).
  vm_compute; reflexivity.
Defined.

Lemma type_and_key_witness :
  exists e,
    parse_bibtex_file latin_alnum latin_lower sample_text !! 0%nat = Some e
    /\ e !! "type" = Some (entry_type sample_record)
    /\ e !! "key" = Some (entry_key sample_record).
Proof.
  apply (type_and_key_kept latin_alnum latin_lower sample_text 0).
  vm_compute; reflexivity.
Defined.

Lemma mapping_keys_witness :
  "year" = "type" \/ "year" = "key" \/ "year" ∈ field_patterns.*1.
Proof.
  apply (mapping_keys_bounded latin_alnum sample_record "year" (u "2020")).
  vm_compute; reflexivity.
Defined.

Lemma present_field_witness :
  structured latin_alnum sample_record !! "title"
  = Some (clean_field_value latin_alnum (group 1 [(1%nat, u "T")])).
Proof.
  apply (present_field_is_stored latin_alnum sample_record "title"
           (balanced "title") (MkMatch 13 24 [(1%nat, u "T")])).
  - in_catalog.
  - vm_compute; reflexivity.
Defined.

Lemma no_at_sign_witness :
  parse_bibtex_file latin_alnum latin_lower (u "no marker in here") = [].
Proof.
  apply (no_at_sign_no_records latin_alnum latin_lower).
  apply (bool_decide_unpack _). vm_compute. exact I.
Defined.

Lemma scalar_value_witness :
  exists e,
    parse_bibtex_file latin_alnum latin_lower sample_text !! 0%nat = Some e
    /\ e !! "year" = Some (clean_field_value latin_alnum (Some (u "2020"))).
Proof.
  apply (scalar_value_captured latin_alnum latin_lower sample_text 0
           sample_record "year" (u "@article{k1, title = {T}, ")
           (u " ") (u " ") (u "2020") (u "}")).
  - vm_compute; reflexivity.
  - in_catalog.
  - reflexivity.
  - reflexivity.
  - vm_compute. discriminate.
  - reflexivity.
  - vm_compute; reflexivity.
  - vm_compute; reflexivity.
Defined.

Lemma booktitle_witness :
  exists e,
    parse_bibtex_file latin_alnum latin_lower sample_book !! 0%nat = Some e
    /\ e !! "booktitle"
       = Some (clean_field_value latin_alnum (Some (one_level (u "Proc") [])))
    /\ e !! "title" = e !! "booktitle".
Proof.
  apply (title_taken_from_booktitle latin_alnum latin_lower sample_book 0
           (MkRaw (u "book") (u "k") sample_book) (u "@book{k, ")
           (u " ") (u " ") (u "Proc") [] (u ", title = {T}}")).
  - vm_compute; reflexivity.
  - reflexivity.
  - reflexivity.
  - reflexivity.
  - reflexivity.
  - vm_compute; reflexivity.
  - vm_compute; reflexivity.
  - vm_compute; reflexivity.
Defined.

Lemma clean_writes_witness :
  8212 ∉ clean_field_value latin_alnum (Some (u "text--more---end")).
Proof.
  apply (clean_writes_only_listed latin_alnum 8212 (u "text--more---end"));
    apply (bool_decide_unpack _); vm_compute; exact I.
Defined.

Lemma plain_text_witness :
  clean_field_value latin_alnum (Some (u "  plain   text, it's here "))
  = strip (re_sub latin_alnum space_run [RText [space]]
             (u "  plain   text, it's here "))
  /\ (ws_normal (u "  plain   text, it's here ") = true ->
      clean_field_value latin_alnum (Some (u "  plain   text, it's here "))
      = u "  plain   text, it's here ").
Proof.
  apply (plain_text_only_collapsed latin_alnum
           (u "  plain   text, it's here ")); reflexivity.
Defined.

Lemma export_row_witness :
  exists row,
    export_rows [<["title" := u "T"]> ∅] !! 0%nat = Some row
    /\ row_get (u "序号") row = Some (CInt 1)
    /\ forall title field, (title, field) ∈ export_columns ->
         row_get title row
         = Some (CStr (default [] ((<["title" := u "T"]> ∅ : gmap string str)
                                     !! field))).
Proof.
  apply (export_row_cells [<["title" := u "T"]> ∅] 0 (<["title" := u "T"]> ∅)).
  reflexivity.
Defined.

Lemma export_keeps_witness :
  exists title,
    (title, "title") ∈ export_columns
    /\ row_get title (export_row 1 (structured latin_alnum sample_record))
       = Some (CStr (u "T")).
Proof.
  apply (export_keeps_every_field latin_alnum sample_record 1 "title" (u "T")).
  vm_compute; reflexivity.
Defined.
